(** * Warehouse AGV model (Lab 3): pathfinder, vehicle state machine,
      dispatcher and tick scheduler

    Shallow embedding of [Lab3-Warehouse-AGVs/warehouse_agv_model.py].

    - Cells are pairs of Python integers ([Z * Z]).
    - The Mesa [MultiGrid] (not part of the repository) is modelled by its
      interface: per-cell occupant lists, a read, a placement and a move.
    - Agents are Python objects: the grid holds references to them
      (class and [unique_id]); the mutable vehicle attributes live in the
      model's agent list and are written back after each action.
    - The battery is a Python float.  Every value the program computes from
      100.0 with the rates 0.5 and 5.0 is a multiple of 1/2 between 0 and
      100, which binary floating point represents exactly, so rational
      arithmetic ([Q]) agrees with the float arithmetic on those values.
    - [random.choice] draws from an explicit source carried by the model;
      the shuffled activation order of a tick is a parameter of the tick. *)

From Stdlib Require Import Ascii String.
From Stdlib Require Import ZArith List Bool Lia Permutation.
From Stdlib Require Import QArith Qminmax Lqa.
Import ListNotations.

Open Scope Z_scope.

(** ** Cells and the Manhattan heuristic *)

Definition cell : Type := (Z * Z)%type.

Definition cell_eqb (a b : cell) : bool :=
  (fst a =? fst b) && (snd a =? snd b).

(** [heuristic(pos1, pos2)] *)
Definition heuristic (pos1 pos2 : cell) : Z :=
  Z.abs (fst pos1 - fst pos2) + Z.abs (snd pos1 - snd pos2).

(** Python's [x in visited] / [x in list] for cells. *)
Definition mem (c : cell) (s : list cell) : bool := existsb (cell_eqb c) s.

(** ** Agent classes and the grid *)

Inductive Kind : Type :=
| WallAgent
| ShelfAgent
| ChargingStationAgent
| DropoffPointAgent
| AGVAgentK.

Definition kind_eqb (a b : Kind) : bool :=
  match a, b with
  | WallAgent, WallAgent => true
  | ShelfAgent, ShelfAgent => true
  | ChargingStationAgent, ChargingStationAgent => true
  | DropoffPointAgent, DropoffPointAgent => true
  | AGVAgentK, AGVAgentK => true
  | _, _ => false
  end.

(** A reference to an agent object as the grid stores it: the object's class
    and its [unique_id]. *)
Record Occupant : Type := mkOcc { occ_kind : Kind; occ_id : nat }.

Definition occ_eqb (a b : Occupant) : bool :=
  kind_eqb (occ_kind a) (occ_kind b) && Nat.eqb (occ_id a) (occ_id b).

(** [isinstance(agent, tuple(kinds))] *)
Definition isinstance (a : Occupant) (kinds : list Kind) : bool :=
  existsb (kind_eqb (occ_kind a)) kinds.

(** Modelled from the spec: the Grid Environment of section 4.1 (the Mesa
    [MultiGrid] class is not under src/).  A rectangular field of
    [width] x [height]; every cell holds a list of occupants;
    [get_cell_list_contents] reads it without side effect, [place_agent]
    adds an occupant to a cell, and [move_agent] removes the occupant from
    its cell and adds it to the destination, with no bounds or occupancy
    check of its own. *)
Record MultiGrid : Type := mkGrid {
  width : Z;
  height : Z;
  cells : cell -> list Occupant
}.

Definition get_cell_list_contents (g : MultiGrid) (p : cell) : list Occupant :=
  cells g p.

Fixpoint remove_occ (a : Occupant) (l : list Occupant) : list Occupant :=
  match l with
  | [] => []
  | b :: l' => if occ_eqb a b then l' else b :: remove_occ a l'
  end.

Definition set_cell (g : MultiGrid) (p : cell) (l : list Occupant) : MultiGrid :=
  mkGrid (width g) (height g)
         (fun q => if cell_eqb q p then l else cells g q).

Definition place_agent (g : MultiGrid) (a : Occupant) (p : cell) : MultiGrid :=
  set_cell g p (cells g p ++ [a]).

Definition remove_agent (g : MultiGrid) (a : Occupant) (p : cell) : MultiGrid :=
  set_cell g p (remove_occ a (cells g p)).

(** [grid.move_agent(agent, pos)], [from] being the agent's current [pos]. *)
Definition move_agent (g : MultiGrid) (a : Occupant) (from to : cell) : MultiGrid :=
  place_agent (remove_agent g a from) a to.

(** ** Phase 1: the A* pathfinder *)

(** A frontier entry [(f_score, counter, position, path)]. *)
Record entry : Type := mkEntry {
  e_f : Z;
  e_counter : Z;
  e_pos : cell;
  e_path : list cell
}.

(** Python compares the entries as tuples: first [f_score], then [counter].
    The counter differs between any two entries of a search, so the
    comparison never reaches the position or the path. *)
Definition entry_leb (a b : entry) : bool :=
  (e_f a <? e_f b) || ((e_f a =? e_f b) && (e_counter a <=? e_counter b)).

(** [frontier.put(e)] *)
Definition pq_put (q : list entry) (e : entry) : list entry := e :: q.

(** [frontier.get()]: removes and returns the least entry; [None] when the
    queue is empty (the loop tests [frontier.empty()] first). *)
Fixpoint pq_get (q : list entry) : option (entry * list entry) :=
  match q with
  | [] => None
  | e :: q' =>
      match pq_get q' with
      | None => Some (e, [])
      | Some (m, r) =>
          if entry_leb e m then Some (e, q') else Some (m, e :: r)
      end
  end.

Definition neighbors (current : cell) : list cell :=
  let '(x, y) := current in
  [(x + 1, y); (x - 1, y); (x, y + 1); (x, y - 1)].

(** [0 <= next_pos[0] < grid.width and 0 <= next_pos[1] < grid.height] *)
Definition in_bounds (g : MultiGrid) (p : cell) : bool :=
  (0 <=? fst p) && (fst p <? width g) && (0 <=? snd p) && (snd p <? height g).

(** [any(isinstance(agent, tuple(obstacles)) for agent in cell_contents)] *)
Definition is_obstacle (g : MultiGrid) (obstacles : list Kind) (p : cell) : bool :=
  existsb (fun a => isinstance a obstacles) (get_cell_list_contents g p).

(** The [for next_pos in neighbors] loop of [astar]; it threads the frontier
    and the tie-break counter. *)
Fixpoint expand (g : MultiGrid) (goal : cell) (obstacles : list Kind)
    (visited : list cell) (path : list cell) (ns : list cell)
    (frontier : list entry) (counter : Z) : list entry * Z :=
  match ns with
  | [] => (frontier, counter)
  | next_pos :: ns' =>
      if negb (in_bounds g next_pos) then
        expand g goal obstacles visited path ns' frontier counter
      else if is_obstacle g obstacles next_pos || mem next_pos visited then
        expand g goal obstacles visited path ns' frontier counter
      else
        let g_score := Z.of_nat (length path) in
        let h_score := heuristic next_pos goal in
        let f_score := g_score + h_score in
        let counter := counter + 1 in
        let new_path := path ++ [next_pos] in
        expand g goal obstacles visited path ns'
               (pq_put frontier (mkEntry f_score counter next_pos new_path))
               counter
  end.

(** The [while not frontier.empty()] loop of [astar].  [fuel] bounds the
    number of iterations; [None] means the bound was reached before the
    loop ended. *)
Fixpoint astar_loop (fuel : nat) (g : MultiGrid) (goal : cell)
    (obstacles : list Kind) (frontier : list entry) (visited : list cell)
    (counter : Z) : option (list cell) :=
  match fuel with
  | O => None
  | S fuel' =>
      match pq_get frontier with
      | None => Some []
      | Some (e, frontier') =>
          let current := e_pos e in
          let path := e_path e in
          if cell_eqb current goal then Some path
          else if mem current visited then
            astar_loop fuel' g goal obstacles frontier' visited counter
          else
            let visited' := current :: visited in
            let '(frontier'', counter') :=
              expand g goal obstacles visited' path (neighbors current)
                     frontier' counter in
            astar_loop fuel' g goal obstacles frontier'' visited' counter'
      end
  end.

(** Each iteration removes one entry, and an iteration that adds entries
    (at most four) marks a new cell visited; the visited cells are the start
    and cells within the bounds.  So the loop runs at most
    [4 * (width * height + 1) + 1] times. *)
Definition astar_fuel (g : MultiGrid) : nat :=
  4 * (Z.to_nat (width g) * Z.to_nat (height g) + 1) + 2.

(** [astar(grid, start, end, obstacles)] *)
Definition astar (g : MultiGrid) (start goal : cell) (obstacles : list Kind)
    : list cell :=
  match astar_loop (astar_fuel g) g goal obstacles
                   [mkEntry 0 0 start [start]] [] 0 with
  | Some p => p
  | None => []
  end.

(** All cells inside the grid, in the order of
    [for x in range(width): for y in range(height)]. *)
Definition grid_cells (g : MultiGrid) : list cell :=
  list_prod (map Z.of_nat (seq 0 (Z.to_nat (width g))))
            (map Z.of_nat (seq 0 (Z.to_nat (height g)))).

(** ** Phase 2: vehicles, tasks and the model state *)

Inductive State : Type :=
| IDLE
| MOVING_TO_PICKUP
| DELIVERING
| CHARGING
| WAITING.

Definition state_eqb (a b : State) : bool :=
  match a, b with
  | IDLE, IDLE => true
  | MOVING_TO_PICKUP, MOVING_TO_PICKUP => true
  | DELIVERING, DELIVERING => true
  | CHARGING, CHARGING => true
  | WAITING, WAITING => true
  | _, _ => false
  end.

(** A task dict [{'pickup': (x, y), 'dropoff': (x, y)}]. *)
Record Task : Type := mkTask { pickup : cell; dropoff : cell }.

(** The attributes of an [AGVAgent] object. *)
Record AGVAgent : Type := mkAGV {
  unique_id : nat;
  pos : cell;
  battery_level : Q;
  state : State;
  task : option Task;
  path : list cell;
  steps_waiting : nat
}.

(** Configuration set in [AGVAgent.__init__] and never assigned again. *)
Definition battery_drain_rate : Q := 1 # 2.
Definition battery_charge_rate : Q := 5 # 1.
Definition low_battery_threshold : Q := 20 # 1.

(** [AGVAgent.__init__(model, pos)] with the identifier Mesa assigns. *)
Definition AGVAgent_init (id : nat) (p : cell) : AGVAgent :=
  mkAGV id p (100 # 1) IDLE None [] 0.

Definition set_pos (a : AGVAgent) (p : cell) : AGVAgent :=
  mkAGV (unique_id a) p (battery_level a) (state a) (task a) (path a)
        (steps_waiting a).
Definition set_battery_level (a : AGVAgent) (b : Q) : AGVAgent :=
  mkAGV (unique_id a) (pos a) b (state a) (task a) (path a) (steps_waiting a).
Definition set_state (a : AGVAgent) (s : State) : AGVAgent :=
  mkAGV (unique_id a) (pos a) (battery_level a) s (task a) (path a)
        (steps_waiting a).
Definition set_task (a : AGVAgent) (t : option Task) : AGVAgent :=
  mkAGV (unique_id a) (pos a) (battery_level a) (state a) t (path a)
        (steps_waiting a).
Definition set_path (a : AGVAgent) (p : list cell) : AGVAgent :=
  mkAGV (unique_id a) (pos a) (battery_level a) (state a) (task a) p
        (steps_waiting a).
Definition set_steps_waiting (a : AGVAgent) (n : nat) : AGVAgent :=
  mkAGV (unique_id a) (pos a) (battery_level a) (state a) (task a) (path a) n.

(** An element of [model.agents]: a static feature (class, identifier,
    position) or a vehicle. *)
Inductive Agent : Type :=
| Static (k : Kind) (id : nat) (p : cell)
| Vehicle (a : AGVAgent).

Definition agent_kind (x : Agent) : Kind :=
  match x with Static k _ _ => k | Vehicle _ => AGVAgentK end.
Definition agent_pos (x : Agent) : cell :=
  match x with Static _ _ p => p | Vehicle a => pos a end.

(** The grid's reference to a vehicle object. *)
Definition occ_of (a : AGVAgent) : Occupant := mkOcc AGVAgentK (unique_id a).

(** The state of the [random] module: the sequence of numbers it will
    produce and how many were consumed. *)
Record Random : Type := mkRandom { draws : nat -> nat; cursor : nat }.

(** [random.choice(seq)] on a non-empty sequence [d :: rest]. *)
Definition random_choice {A : Type} (r : Random) (d : A) (rest : list A)
    : A * Random :=
  (nth (Nat.modulo (draws r (cursor r)) (S (length rest))) (d :: rest) d,
   mkRandom (draws r) (S (cursor r))).

(** The attributes of the [WarehouseModel] object; [agents] is in
    registration order. *)
Record WarehouseModel : Type := mkModel {
  grid : MultiGrid;
  agents : list Agent;
  available_tasks : list Task;
  completed_tasks : Z;
  random : Random
}.

Definition set_grid (m : WarehouseModel) (g : MultiGrid) : WarehouseModel :=
  mkModel g (agents m) (available_tasks m) (completed_tasks m) (random m).
Definition set_agents (m : WarehouseModel) (l : list Agent) : WarehouseModel :=
  mkModel (grid m) l (available_tasks m) (completed_tasks m) (random m).
Definition set_available_tasks (m : WarehouseModel) (l : list Task)
    : WarehouseModel :=
  mkModel (grid m) (agents m) l (completed_tasks m) (random m).
Definition set_random (m : WarehouseModel) (r : Random) : WarehouseModel :=
  mkModel (grid m) (agents m) (available_tasks m) (completed_tasks m) r.

(** [[agent.pos for agent in self.agents if isinstance(agent, K)]] *)
Definition positions_of (k : Kind) (l : list Agent) : list cell :=
  map agent_pos (filter (fun x => kind_eqb (agent_kind x) k) l).

(** ** The task dispatcher *)

(** The [for _ in range(num_tasks)] loop of [_generate_tasks]. *)
Fixpoint generate_loop (num_tasks : nat) (s0 : cell) (shelves : list cell)
    (d0 : cell) (dropoffs : list cell) (tasks : list Task) (r : Random)
    : list Task * Random :=
  match num_tasks with
  | O => (tasks, r)
  | S n =>
      let '(p, r1) := random_choice r s0 shelves in
      let '(d, r2) := random_choice r1 d0 dropoffs in
      generate_loop n s0 shelves d0 dropoffs (tasks ++ [mkTask p d]) r2
  end.

(** [WarehouseModel._generate_tasks(num_tasks)] *)
Definition _generate_tasks (m : WarehouseModel) (num_tasks : nat)
    : WarehouseModel :=
  let shelf_positions := positions_of ShelfAgent (agents m) in
  let dropoff_positions := positions_of DropoffPointAgent (agents m) in
  match shelf_positions, dropoff_positions with
  | s0 :: shelves, d0 :: dropoffs =>
      let '(tasks, r) :=
        generate_loop num_tasks s0 shelves d0 dropoffs
                      (available_tasks m) (random m) in
      set_random (set_available_tasks m tasks) r
  | _, _ => m
  end.

(** [WarehouseModel.assign_task_to_agv(agv)] *)
Definition assign_task_to_agv (m : WarehouseModel)
    : option Task * WarehouseModel :=
  match available_tasks m with
  | t :: rest =>
      let m1 := set_available_tasks m rest in
      let m2 := if (length (available_tasks m1) <? 10)%nat
                then _generate_tasks m1 5 else m1 in
      (Some t, m2)
  | [] => (None, m)
  end.

(** ** The vehicle state machine *)

(** [AGVAgent._calculate_path_to(destination)] *)
Definition _calculate_path_to (m : WarehouseModel) (self : AGVAgent)
    (destination : cell) : AGVAgent :=
  let obstacles := [WallAgent; ShelfAgent] in
  let self := set_path self (astar (grid m) (pos self) destination obstacles) in
  match path self with
  | [] => set_task (set_state self IDLE) None
  | _ :: _ => self
  end.

(** [AGVAgent._handle_idle_state()] *)
Definition _handle_idle_state (m : WarehouseModel) (self : AGVAgent)
    : WarehouseModel * AGVAgent :=
  let '(t, m) := assign_task_to_agv m in
  match t with
  | Some tk =>
      let self := set_task self (Some tk) in
      let self := set_state self MOVING_TO_PICKUP in
      (m, _calculate_path_to m self (pickup tk))
  | None => (m, self)
  end.

(** [AGVAgent._follow_path()] *)
Definition _follow_path (m : WarehouseModel) (self : AGVAgent)
    : WarehouseModel * AGVAgent :=
  match path self with
  | [] => (m, self)
  | next_pos :: rest =>
      let cell_contents := get_cell_list_contents (grid m) next_pos in
      let other_agvs :=
        filter (fun agent => isinstance agent [AGVAgentK]) cell_contents in
      match other_agvs with
      | _ :: _ =>
          let self := set_state self WAITING in
          let self := set_steps_waiting self (steps_waiting self + 1) in
          (m, self)
      | [] =>
          let self :=
            if state_eqb (state self) WAITING then
              set_state self
                (match task self with
                 | Some _ => MOVING_TO_PICKUP
                 | None => DELIVERING
                 end)
            else self in
          let m := set_grid m (move_agent (grid m) (occ_of self) (pos self)
                                          next_pos) in
          let self := set_pos self next_pos in
          let self := set_path self rest in
          let self :=
            set_battery_level self
              (Qmax 0 (battery_level self - battery_drain_rate)) in
          let self := set_steps_waiting self 0 in
          (m, self)
      end
  end.

(** [min(charging_stations, key=lambda s: heuristic(self.pos, s.pos))]:
    the first station of least distance. *)
Fixpoint nearest (p : cell) (best : cell) (stations : list cell) : cell :=
  match stations with
  | [] => best
  | s :: rest =>
      if heuristic p s <? heuristic p best then nearest p s rest
      else nearest p best rest
  end.

(** [AGVAgent._start_charging()] *)
Definition _start_charging (m : WarehouseModel) (self : AGVAgent) : AGVAgent :=
  let charging_stations := positions_of ChargingStationAgent (agents m) in
  match charging_stations with
  | [] => self
  | s0 :: rest =>
      let nearest_station := nearest (pos self) s0 rest in
      let self := set_state self CHARGING in
      _calculate_path_to m self nearest_station
  end.

(** [AGVAgent._charge_battery()] *)
Definition _charge_battery (m : WarehouseModel) (self : AGVAgent)
    : WarehouseModel * AGVAgent :=
  let cell_contents := get_cell_list_contents (grid m) (pos self) in
  let at_station :=
    existsb (fun agent => isinstance agent [ChargingStationAgent])
            cell_contents in
  if at_station then
    let self :=
      set_battery_level self
        (Qmin (100 # 1) (battery_level self + battery_charge_rate)) in
    if Qle_bool (100 # 1) (battery_level self) then
      (m, set_task (set_state self IDLE) None)
    else (m, self)
  else _follow_path m self.

(** [AGVAgent._complete_task()] *)
Definition _complete_task (self : AGVAgent) : AGVAgent :=
  set_state (set_task self None) IDLE.

(** [x < y] on battery levels. *)
Definition Qlt_bool (x y : Q) : bool := negb (Qle_bool y x).

(** [AGVAgent.step()] *)
Definition AGVAgent_step (m : WarehouseModel) (self : AGVAgent)
    : WarehouseModel * AGVAgent :=
  if Qlt_bool (battery_level self) low_battery_threshold
     && negb (state_eqb (state self) CHARGING)
  then (m, _start_charging m self)
  else
    match state self with
    | IDLE => _handle_idle_state m self
    | MOVING_TO_PICKUP =>
        let '(m, self) := _follow_path m self in
        match path self, task self with
        | [], Some tk =>
            let self := set_state self DELIVERING in
            (m, _calculate_path_to m self (dropoff tk))
        | _, _ => (m, self)
        end
    | DELIVERING =>
        let '(m, self) := _follow_path m self in
        match path self with
        | [] => (m, _complete_task self)
        | _ :: _ => (m, self)
        end
    | CHARGING => _charge_battery m self
    | WAITING => (m, self)
    end.

(** Phase 4 hooks. *)

(** [AGVAgent.override_position(new_pos)] *)
Definition override_position (m : WarehouseModel) (self : AGVAgent)
    (new_pos : cell) : WarehouseModel * AGVAgent :=
  (set_grid m (move_agent (grid m) (occ_of self) (pos self) new_pos),
   set_pos self new_pos).

(** [AGVAgent.assign_external_task(task)] *)
Definition assign_external_task (m : WarehouseModel) (self : AGVAgent)
    (t : Task) : AGVAgent :=
  if Qlt_bool (10 # 1) (battery_level self) then
    let self := set_task self (Some t) in
    let self := set_state self MOVING_TO_PICKUP in
    _calculate_path_to m self (pickup t)
  else self.

(** ** The tick scheduler *)

(** The vehicle object with a given identifier in [model.agents]. *)
Fixpoint find_agv (l : list Agent) (id : nat) : option AGVAgent :=
  match l with
  | [] => None
  | Vehicle a :: l' => if Nat.eqb (unique_id a) id then Some a else find_agv l' id
  | Static _ _ _ :: l' => find_agv l' id
  end.

(** Writes a vehicle's attributes back into [model.agents]. *)
Definition store_agv (l : list Agent) (a' : AGVAgent) : list Agent :=
  map (fun x =>
         match x with
         | Vehicle a => if Nat.eqb (unique_id a) (unique_id a') then Vehicle a' else x
         | Static _ _ _ => x
         end) l.

(** One vehicle's turn within a tick: [agent.step()] on the object with
    identifier [id]. *)
Definition agent_turn (m : WarehouseModel) (id : nat) : WarehouseModel :=
  match find_agv (agents m) id with
  | Some self =>
      let '(m', self') := AGVAgent_step m self in
      set_agents m' (store_agv (agents m') self')
  | None => m
  end.

(** The identifiers of the model's vehicles, in registration order. *)
Definition agv_ids (l : list Agent) : list nat :=
  flat_map (fun x => match x with Vehicle a => [unique_id a] | _ => [] end) l.

(** [WarehouseModel.step()]: [order] is the order [shuffle_do] produced, a
    permutation of the vehicles. *)
Definition WarehouseModel_step (order : list nat) (m : WarehouseModel)
    : WarehouseModel :=
  fold_left agent_turn order m.

(** [agv.override_position(new_pos)] called on the vehicle [id] between
    ticks. *)
Definition hook_override_position (m : WarehouseModel) (id : nat)
    (new_pos : cell) : WarehouseModel :=
  match find_agv (agents m) id with
  | Some self =>
      let '(m', self') := override_position m self new_pos in
      set_agents m' (store_agv (agents m') self')
  | None => m
  end.

(** [agv.assign_external_task(task)] called on the vehicle [id] between
    ticks. *)
Definition hook_assign_external_task (m : WarehouseModel) (id : nat)
    (t : Task) : WarehouseModel :=
  match find_agv (agents m) id with
  | Some self =>
      set_agents m (store_agv (agents m) (assign_external_task m self t))
  | None => m
  end.

(** ** Model construction *)

(** The text map of [_create_warehouse_layout]. *)
Definition layout : list string := [
  "##############################";
  "#                            #";
  "#  SSSS  SSSS  SSSS  SSSS    #";
  "#  SSSS  SSSS  SSSS  SSSS    #";
  "#                          D #";
  "#  SSSS  SSSS  SSSS  SSSS    #";
  "#  SSSS  SSSS  SSSS  SSSS    #";
  "#                          D #";
  "#  SSSS  SSSS  SSSS  SSSS    #";
  "#  SSSS  SSSS  SSSS  SSSS    #";
  "#                          D #";
  "#  SSSS  SSSS  SSSS  SSSS    #";
  "#  SSSS  SSSS  SSSS  SSSS    #";
  "#                            #";
  "#            C  C  C         #";
  "#                            #";
  "#  SSSS  SSSS  SSSS  SSSS    #";
  "#  SSSS  SSSS  SSSS  SSSS    #";
  "#                          D #";
  "#  SSSS  SSSS  SSSS  SSSS    #";
  "#  SSSS  SSSS  SSSS  SSSS    #";
  "#                          D #";
  "#  SSSS  SSSS  SSSS  SSSS    #";
  "#  SSSS  SSSS  SSSS  SSSS    #";
  "#                          D #";
  "#  SSSS  SSSS  SSSS  SSSS    #";
  "#  SSSS  SSSS  SSSS  SSSS    #";
  "#                            #";
  "#                            #";
  "##############################"
]%string.

(** The class a layout symbol stands for. *)
Definition kind_of_symbol (c : ascii) : option Kind :=
  if Ascii.eqb c "#" then Some WallAgent
  else if Ascii.eqb c "S" then Some ShelfAgent
  else if Ascii.eqb c "C" then Some ChargingStationAgent
  else if Ascii.eqb c "D" then Some DropoffPointAgent
  else None.

(** The identifier Mesa gives the next agent created: agents are numbered
    from 1 in creation order and never removed. *)
Definition next_id (m : WarehouseModel) : nat := S (length (agents m)).

(** Creating a static agent and placing it: [a = K(self)] then
    [self.grid.place_agent(a, (x, y))]. *)
Definition add_static (m : WarehouseModel) (k : Kind) (p : cell)
    : WarehouseModel :=
  let id := next_id m in
  set_grid (set_agents m (agents m ++ [Static k id p]))
           (place_agent (grid m) (mkOcc k id) p).

(** [for x, cell in enumerate(row)] *)
Fixpoint layout_row (m : WarehouseModel) (x y : Z) (row : string)
    : WarehouseModel :=
  match row with
  | EmptyString => m
  | String c row' =>
      let m := match kind_of_symbol c with
               | Some k => add_static m k (x, y)
               | None => m
               end in
      layout_row m (x + 1) y row'
  end.

(** [for y, row in enumerate(layout)] *)
Fixpoint layout_rows (m : WarehouseModel) (y : Z) (rows : list string)
    : WarehouseModel :=
  match rows with
  | [] => m
  | row :: rows' => layout_rows (layout_row m 0 y row) (y + 1) rows'
  end.

(** [WarehouseModel._create_warehouse_layout()], for a given text map. *)
Definition _create_warehouse_layout (lay : list string) (m : WarehouseModel)
    : WarehouseModel :=
  layout_rows m 0 lay.

(** [list.remove(pos)] *)
Fixpoint remove_cell (p : cell) (l : list cell) : list cell :=
  match l with
  | [] => []
  | q :: l' => if cell_eqb p q then l' else q :: remove_cell p l'
  end.

(** The [for i in range(num_agvs)] loop of [_create_agv_fleet]. *)
Fixpoint fleet_loop (num_agvs : nat) (open_spaces : list cell)
    (m : WarehouseModel) : WarehouseModel :=
  match num_agvs with
  | O => m
  | S n =>
      match open_spaces with
      | [] => fleet_loop n open_spaces m
      | d :: rest =>
          let '(p, r) := random_choice (random m) d rest in
          let open_spaces := remove_cell p open_spaces in
          let agv := AGVAgent_init (next_id m) p in
          let m := set_random m r in
          let m := set_agents m (agents m ++ [Vehicle agv]) in
          let m := set_grid m (place_agent (grid m) (occ_of agv) p) in
          fleet_loop n open_spaces m
      end
  end.

(** [WarehouseModel._create_agv_fleet(num_agvs)] *)
Definition _create_agv_fleet (m : WarehouseModel) (num_agvs : nat)
    : WarehouseModel :=
  let open_spaces :=
    filter (fun p =>
              negb (existsb
                      (fun agent =>
                         isinstance agent [WallAgent; ShelfAgent; AGVAgentK])
                      (get_cell_list_contents (grid m) p)))
           (grid_cells (grid m)) in
  fleet_loop num_agvs open_spaces m.

(** [WarehouseModel.__init__(width, height, num_agvs)] over the text map
    [lay], with [r] the state of the random source. *)
Definition init_with (lay : list string) (width height : Z) (num_agvs : nat)
    (r : Random) : WarehouseModel :=
  let m := mkModel (mkGrid width height (fun _ => [])) [] [] 0 r in
  let m := _create_warehouse_layout lay m in
  let m := _create_agv_fleet m num_agvs in
  _generate_tasks m 30.

Definition WarehouseModel_init (width height : Z) (num_agvs : nat)
    (r : Random) : WarehouseModel :=
  init_with layout width height num_agvs r.

(** The model states a program can observe between calls: the constructed
    model, then any sequence of ticks, task requests and twin hooks. *)
Inductive reachable (lay : list string) : WarehouseModel -> Prop :=
| reach_init width height num_agvs r :
    reachable lay (init_with lay width height num_agvs r)
| reach_step order m :
    reachable lay m -> reachable lay (WarehouseModel_step order m)
| reach_request m :
    reachable lay m -> reachable lay (snd (assign_task_to_agv m))
| reach_override m id new_pos :
    reachable lay m -> reachable lay (hook_override_position m id new_pos)
| reach_external m id t :
    reachable lay m -> reachable lay (hook_assign_external_task m id t).

(** The text map has a cell marked [c]. *)
Definition layout_has (lay : list string) (c : ascii) : bool :=
  existsb (fun row => existsb (Ascii.eqb c) (list_ascii_of_string row)) lay.

(** ** Vocabulary of the statements *)

(** A neighbour is pushed when it is inside the grid, holds no obstacle and
    was not visited. *)
Definition pushable (g : MultiGrid) (obstacles : list Kind)
    (visited : list cell) (n : cell) : Prop :=
  in_bounds g n = true /\ is_obstacle g obstacles n = false /\
  mem n visited = false.

(** The entry [expand] builds for neighbour [n] with counter [c]. *)
Definition pushed (goal : cell) (path : list cell) (n : cell) (c : Z) : entry :=
  mkEntry (Z.of_nat (length path) + heuristic n goal) c n (path ++ [n]).

(** The cells of [U] not yet visited. *)
Definition unvisited (visited U : list cell) : list cell :=
  filter (fun c => negb (mem c visited)) U.

(** A cell the search may enter: inside the grid and free of obstacles. *)
Definition passable (g : MultiGrid) (obstacles : list Kind) (p : cell) : Prop :=
  in_bounds g p = true /\ is_obstacle g obstacles p = false.

(** [walk a rest]: [rest] continues from [a] by 4-directional steps through
    passable cells. *)
Fixpoint walk (g : MultiGrid) (obstacles : list Kind) (a : cell)
    (rest : list cell) : Prop :=
  match rest with
  | [] => True
  | b :: r => In b (neighbors a) /\ passable g obstacles b /\
              walk g obstacles b r
  end.

(** [p] is a route from [start] to [goal]: it begins with [start], ends
    with [goal], and every later cell is a passable neighbour of the cell
    before it. *)
Definition route (g : MultiGrid) (obstacles : list Kind) (start goal : cell)
    (p : list cell) : Prop :=
  exists rest, p = start :: rest /\ walk g obstacles start rest /\
               last p start = goal.

Definition reachable_cell (g : MultiGrid) (obstacles : list Kind)
    (start goal : cell) : Prop :=
  exists p, route g obstacles start goal p.

(** The invariant of the search loop behind the contract: every frontier
    entry carries a route to its position, the goal is not visited, every
    passable neighbour of a visited cell is visited or in the frontier, and
    so is the start. *)
Definition search_inv (g : MultiGrid) (start goal : cell)
    (obstacles : list Kind) (fr : list entry) (vis : list cell) (c : Z)
    : Prop :=
  (forall e, In e fr -> route g obstacles start (e_pos e) (e_path e)) /\
  ~ In goal vis /\
  (forall v, In v vis -> forall n, In n (neighbors v) ->
     passable g obstacles n ->
     In n vis \/ exists e, In e fr /\ e_pos e = n) /\
  (In start vis \/ exists e, In e fr /\ e_pos e = start).

(** What the search returns: nothing when the goal is unreachable, else a
    route. *)
Definition search_post (g : MultiGrid) (start goal : cell)
    (obstacles : list Kind) (r : list cell) : Prop :=
  (r = [] /\ ~ reachable_cell g obstacles start goal) \/
  route g obstacles start goal r.

(** Steps taken by an entry's path plus the estimate of what remains. *)
Definition true_f (goal : cell) (e : entry) : Z :=
  Z.of_nat (length (e_path e)) - 1 + heuristic (e_pos e) goal.

(** The invariant of the search loop on a grid without obstacles: no entry
    scores below the Manhattan distance D from start to goal, every visited
    cell lies inside the grid, and every neighbour of a visited cell that is
    one step nearer to the goal is visited or in the frontier with score at
    most D. *)
Definition opt_inv (g : MultiGrid) (start goal : cell) (fr : list entry)
    (vis : list cell) (c : Z) : Prop :=
  (forall e, In e fr ->
     in_bounds g (e_pos e) = true /\
     heuristic start goal <= true_f goal e /\
     (e_f e = true_f goal e \/ true_f goal e = heuristic start goal)) /\
  ~ In goal vis /\
  (forall v, In v vis ->
     in_bounds g v = true /\
     forall n, In n (neighbors v) -> in_bounds g n = true ->
       heuristic n goal + 1 = heuristic v goal ->
       In n vis \/
       exists e, In e fr /\ e_pos e = n /\ e_f e <= heuristic start goal) /\
  (In start vis \/
   exists e, In e fr /\ e_pos e = start /\ e_f e <= heuristic start goal).

(** [queue.PriorityQueue] seen from outside: the queue holds its entries in
    an arrangement of its own, and [get] removes an entry that is least in
    Python's tuple order. *)
Definition heap_get (fr : list entry) (e : entry) (fr' : list entry) : Prop :=
  Permutation fr (e :: fr') /\ forall x, In x fr' -> entry_leb e x = true.

(** The runs of the [while] loop of [astar] over such a queue. *)
Inductive astar_run (g : MultiGrid) (goal : cell) (obstacles : list Kind)
  : list entry -> list cell -> Z -> list cell -> Prop :=
| run_empty vis c :
    astar_run g goal obstacles [] vis c []
| run_goal fr vis c e fr' :
    heap_get fr e fr' -> e_pos e = goal ->
    astar_run g goal obstacles fr vis c (e_path e)
| run_skip fr vis c e fr' r :
    heap_get fr e fr' -> e_pos e <> goal -> In (e_pos e) vis ->
    astar_run g goal obstacles fr' vis c r ->
    astar_run g goal obstacles fr vis c r
| run_expand fr vis c e fr' fr'' c' r :
    heap_get fr e fr' -> e_pos e <> goal -> ~ In (e_pos e) vis ->
    expand g goal obstacles (e_pos e :: vis) (e_path e)
           (neighbors (e_pos e)) fr' c = (fr'', c') ->
    astar_run g goal obstacles fr'' (e_pos e :: vis) c' r ->
    astar_run g goal obstacles fr vis c r.

(** A call [astar(grid, start, end, obstacles)] may return [r]. *)
Definition astar_returns (g : MultiGrid) (start goal : cell)
    (obstacles : list Kind) (r : list cell) : Prop :=
  astar_run g goal obstacles [mkEntry 0 0 start [start]] [] 0 r.

(** The counters in the frontier are distinct and at most the current one. *)
Definition keys_ok (fr : list entry) (c : Z) : Prop :=
  NoDup (map e_counter fr) /\ forall e, In e fr -> e_counter e <= c.

(** No vehicle stands on [p]. *)
Definition no_agv_at (g : MultiGrid) (p : cell) : Prop :=
  filter (fun agent => isinstance agent [AGVAgentK]) (cells g p) = [].

(** The number of vehicles on a cell. *)
Definition agv_count (g : MultiGrid) (p : cell) : nat :=
  length (filter (fun agent => isinstance agent [AGVAgentK]) (cells g p)).

Definition no_double_occupancy (m : WarehouseModel) : Prop :=
  forall p, (agv_count (grid m) p <= 1)%nat.

Definition battery_ok (a : AGVAgent) : Prop :=
  (0 <= battery_level a /\ battery_level a <= 100)%Q.

(** The tick is spent charging: the vehicle is in state CHARGING on a cell
    with a charging station. *)
Definition charging_at_station (m : WarehouseModel) (self : AGVAgent) : bool :=
  state_eqb (state self) CHARGING &&
  existsb (fun agent => isinstance agent [ChargingStationAgent])
          (get_cell_list_contents (grid m) (pos self)).

(** Every vehicle's battery is within bounds. *)
Definition batteries_ok (m : WarehouseModel) : Prop :=
  forall a, In (Vehicle a) (agents m) -> battery_ok a.

(** Every shelf of the agent list stands on its cell of the grid. *)
Definition shelves_on_grid (m : WarehouseModel) : Prop :=
  forall p, In p (positions_of ShelfAgent (agents m)) ->
            is_obstacle (grid m) [ShelfAgent] p = true.

(** Every backlog task picks up at a shelf position. *)
Definition tasks_on_shelves (m : WarehouseModel) : Prop :=
  forall t, In t (available_tasks m) ->
            In (pickup t) (positions_of ShelfAgent (agents m)).

(** The layout offers pickups and dropoffs and the backlog is at or above
    the low-water mark. *)
Definition backlog_ok (m : WarehouseModel) : Prop :=
  positions_of ShelfAgent (agents m) <> [] /\
  positions_of DropoffPointAgent (agents m) <> [] /\
  (10 <= length (available_tasks m))%nat.

(** What holds while the constructor builds the layout and the fleet. *)
Definition building_ok (m : WarehouseModel) : Prop :=
  shelves_on_grid m /\ batteries_ok m /\ available_tasks m = [].

(** ** Concrete grids, vehicles and models *)

(** A grid without occupants. *)
Definition open_grid (w h : Z) : MultiGrid := mkGrid w h (fun _ => []).

(** A random source that yields 0, 1, 2, ... *)
Definition counting : Random := mkRandom (fun n => n) 0.

(** A corridor of three cells with one vehicle, number 1, on its west end. *)
Definition corridor : WarehouseModel :=
  mkModel (place_agent (open_grid 3 1) (mkOcc AGVAgentK 1) (0, 0))
          [Vehicle (AGVAgent_init 1 (0, 0))] [] 0 counting.

(** Vehicle 1 of [corridor] after [assign_external_task] gave it a pickup
    at the east end: it holds the path [astar] computed. *)
Definition corridor_agv : AGVAgent :=
  assign_external_task corridor (AGVAgent_init 1 (0, 0))
                       (mkTask (2, 0) (1, 0)).

(** Vehicle 1 of [corridor] waiting in front of the free cell (1, 0). *)
Definition waiting_agv : AGVAgent :=
  mkAGV 1 (0, 0) (100 # 1) WAITING (Some (mkTask (1, 0) (2, 0))) [(1, 0)] 1.

(** Vehicle 1 of [corridor] with a low battery; [corridor] has no charging
    station. *)
Definition drained_agv : AGVAgent :=
  mkAGV 1 (0, 0) (10 # 1) IDLE None [] 0.

(** Two vehicles on a corridor, number 1 heading east towards number 2. *)
Definition two_agvs : WarehouseModel :=
  mkModel
    (mkGrid 3 1
       (fun q => if cell_eqb q (0, 0) then [mkOcc AGVAgentK 1]
                 else if cell_eqb q (2, 0) then [mkOcc AGVAgentK 2]
                 else []))
    [Vehicle (mkAGV 1 (0, 0) (100 # 1) DELIVERING
                    (Some (mkTask (0, 0) (2, 0))) [(1, 0); (2, 0)] 0);
     Vehicle (mkAGV 2 (2, 0) (100 # 1) DELIVERING
                    (Some (mkTask (2, 0) (0, 0))) [(1, 0); (0, 0)] 0)]
    [] 0 counting.

(** A one-row text map: a shelf, a free cell and a dropoff point. *)
Definition small_layout : list string := ["S D"%string].

(** The model built over [small_layout] with one vehicle. *)
Definition small_model : WarehouseModel := init_with small_layout 3 1 1 counting.

(** The vehicle of [small_model]. *)
Definition small_agv : AGVAgent := AGVAgent_init 3 (1, 0).

(** [n] task requests in a row. *)
Fixpoint requests (n : nat) (m : WarehouseModel) : WarehouseModel :=
  match n with
  | O => m
  | S k => snd (assign_task_to_agv (requests k m))
  end.

(** The contract of the pathfinder in the words of the specification:
    from start to goal, the goal included and the start excluded, and empty
    exactly when the goal is unreachable or equal to the start. *)
Definition findPath_contract (g : MultiGrid) (obstacles : list Kind)
    (start goal : cell) (p : list cell) : Prop :=
  (p = [] <-> (~ reachable_cell g obstacles start goal \/ start = goal)) /\
  (p <> [] -> ~ In start p /\ walk g obstacles start p /\
              last p start = goal).

(** A corridor with a charging station on its east end. *)
Definition corridor_with_station : WarehouseModel :=
  add_static corridor ChargingStationAgent (2, 0).

(** * Proofs *)

(** ** Basic facts: cells, queue, neighbour expansion *)

Lemma cell_eqb_eq (a b : cell) : cell_eqb a b = true <-> a = b.
Proof.
  destruct a as [x y], b as [x' y']; unfold cell_eqb; simpl.
  rewrite andb_true_iff, !Z.eqb_eq. split.
  - intros [-> ->]; reflexivity.
  - intros H; inversion H; auto.
Qed.

Lemma cell_eqb_refl (a : cell) : cell_eqb a a = true.
Proof. apply cell_eqb_eq; reflexivity. Qed.

Lemma cell_eqb_neq (a b : cell) : cell_eqb a b = false <-> a <> b.
Proof.
  split.
  - intros H E. apply cell_eqb_eq in E. congruence.
  - intros H. destruct (cell_eqb a b) eqn:E; auto.
    apply cell_eqb_eq in E. contradiction.
Qed.

Lemma mem_In (c : cell) (s : list cell) : mem c s = true <-> In c s.
Proof.
  unfold mem. rewrite existsb_exists. split.
  - intros [x [Hx E]]. apply cell_eqb_eq in E. subst; auto.
  - intros H. exists c. split; auto. apply cell_eqb_refl.
Qed.

Lemma mem_not_In (c : cell) (s : list cell) : mem c s = false <-> ~ In c s.
Proof.
  rewrite <- mem_In. destruct (mem c s); split; congruence.
Qed.

Lemma entry_leb_total (a b : entry) :
  entry_leb a b = false -> entry_leb b a = true.
Proof.
  unfold entry_leb. rewrite orb_false_iff, andb_false_iff, orb_true_iff,
    andb_true_iff. rewrite !Z.ltb_ge, !Z.ltb_lt, !Z.eqb_neq, !Z.eqb_eq,
    Z.leb_gt, Z.leb_le. lia.
Qed.

Lemma entry_leb_trans (a b c : entry) :
  entry_leb a b = true -> entry_leb b c = true -> entry_leb a c = true.
Proof.
  unfold entry_leb. rewrite !orb_true_iff, !andb_true_iff.
  rewrite !Z.ltb_lt, !Z.eqb_eq, !Z.leb_le. lia.
Qed.

Lemma entry_leb_f (a b : entry) : entry_leb a b = true -> e_f a <= e_f b.
Proof.
  unfold entry_leb. rewrite !orb_true_iff, !andb_true_iff.
  rewrite !Z.ltb_lt, !Z.eqb_eq, !Z.leb_le. lia.
Qed.

Lemma entry_leb_antisym (a b : entry) :
  entry_leb a b = true -> entry_leb b a = true ->
  e_f a = e_f b /\ e_counter a = e_counter b.
Proof.
  unfold entry_leb. rewrite !orb_true_iff, !andb_true_iff.
  rewrite !Z.ltb_lt, !Z.eqb_eq, !Z.leb_le. lia.
Qed.

Lemma pq_get_None (q : list entry) : pq_get q = None <-> q = [].
Proof.
  destruct q as [|e q]; simpl; [tauto|].
  destruct (pq_get q) as [[m r]|]; [destruct (entry_leb e m)|];
    split; discriminate.
Qed.

Lemma pq_get_perm (q : list entry) :
  forall m r, pq_get q = Some (m, r) -> Permutation q (m :: r).
Proof.
  induction q as [|e q IH]; simpl; intros m r H; [discriminate|].
  destruct (pq_get q) as [[m' r']|] eqn:E.
  - destruct (entry_leb e m'); inversion H; subst; clear H.
    + apply Permutation_refl.
    + eapply perm_trans; [apply perm_skip, (IH _ _ eq_refl)|apply perm_swap].
  - inversion H; subst. apply pq_get_None in E. subst. apply Permutation_refl.
Qed.

Lemma pq_get_least (q : list entry) :
  forall m r, pq_get q = Some (m, r) ->
  forall e, In e r -> entry_leb m e = true.
Proof.
  induction q as [|e q IH]; simpl; intros m r H x Hx; [discriminate|].
  destruct (pq_get q) as [[m' r']|] eqn:E.
  - specialize (IH _ _ eq_refl).
    destruct (entry_leb e m') eqn:L; inversion H; subst; clear H.
    + apply (Permutation_in _ (pq_get_perm _ _ _ E)) in Hx.
      destruct Hx as [->|Hx]; auto.
      eapply entry_leb_trans; eauto.
    + destruct Hx as [->|Hx]; auto using entry_leb_total.
  - inversion H; subst. destruct Hx.
Qed.

Lemma pq_get_In (q : list entry) (m : entry) (r : list entry) :
  pq_get q = Some (m, r) ->
  forall e, In e q <-> e = m \/ In e r.
Proof.
  intros H e. apply pq_get_perm in H. split; intros Hin.
  - apply (Permutation_in _ H) in Hin. destruct Hin; auto.
  - apply (Permutation_in _ (Permutation_sym H)). destruct Hin; subst; simpl; auto.
Qed.

Section Expand.
Variables (g : MultiGrid) (goal : cell) (obstacles : list Kind).
Variables (visited path : list cell).

Lemma expand_cases (n : cell) :
  (pushable g obstacles visited n /\
   negb (in_bounds g n) = false /\
   is_obstacle g obstacles n || mem n visited = false) \/
  (~ pushable g obstacles visited n /\
   (negb (in_bounds g n) = true \/
    is_obstacle g obstacles n || mem n visited = true)).
Proof.
  unfold pushable.
  destruct (in_bounds g n), (is_obstacle g obstacles n), (mem n visited);
    simpl; intuition congruence.
Qed.

Lemma expand_app (ns : list cell) :
  forall fr c,
    expand g goal obstacles visited path ns fr c =
    (fst (expand g goal obstacles visited path ns [] c) ++ fr,
     snd (expand g goal obstacles visited path ns [] c)).
Proof.
  induction ns as [|n ns IH]; intros fr c; simpl; auto.
  destruct (negb (in_bounds g n)); [apply IH|].
  destruct (is_obstacle g obstacles n || mem n visited); [apply IH|].
  unfold pq_put. rewrite IH. rewrite (IH [_]). simpl.
  rewrite <- app_assoc. reflexivity.
Qed.

Lemma expand_counter (ns : list cell) :
  forall fr c fr' c',
    expand g goal obstacles visited path ns fr c = (fr', c') -> c <= c'.
Proof.
  induction ns as [|n ns IH]; intros fr c fr' c' H; simpl in H.
  - inversion H; lia.
  - destruct (negb (in_bounds g n)); [eauto|].
    destruct (is_obstacle g obstacles n || mem n visited); [eauto|].
    apply IH in H. lia.
Qed.

Lemma expand_length (ns : list cell) :
  forall fr c fr' c',
    expand g goal obstacles visited path ns fr c = (fr', c') ->
    (length fr' <= length fr + length ns)%nat.
Proof.
  induction ns as [|n ns IH]; intros fr c fr' c' H; simpl in H.
  - inversion H; subst; simpl; lia.
  - destruct (negb (in_bounds g n)); [apply IH in H; simpl; lia|].
    destruct (is_obstacle g obstacles n || mem n visited);
      [apply IH in H; simpl; lia|].
    apply IH in H. simpl in *. lia.
Qed.

Lemma expand_incl (ns : list cell) :
  forall fr c fr' c',
    expand g goal obstacles visited path ns fr c = (fr', c') ->
    forall e, In e fr -> In e fr'.
Proof.
  induction ns as [|n ns IH]; intros fr c fr' c' H e He; simpl in H.
  - inversion H; subst; auto.
  - destruct (negb (in_bounds g n)); [eauto|].
    destruct (is_obstacle g obstacles n || mem n visited); [eauto|].
    eapply IH; eauto. simpl; auto.
Qed.

Lemma expand_In (ns : list cell) :
  forall fr c fr' c',
    expand g goal obstacles visited path ns fr c = (fr', c') ->
    forall e, In e fr' ->
    In e fr \/
    exists n k, In n ns /\ pushable g obstacles visited n /\
                c < k <= c' /\ e = pushed goal path n k.
Proof.
  induction ns as [|n ns IH]; intros fr c fr' c' H e He; simpl in H.
  - inversion H; subst; auto.
  - destruct (expand_cases n) as [[P [E1 E2]]|[P [E1|E2]]].
    + rewrite E1, E2 in H. pose proof (expand_counter _ _ _ _ _ H) as Hc.
      destruct (IH _ _ _ _ H e He) as [[<-|Hin]|[n' [k [? [? [? ?]]]]]]; auto.
      * right. exists n, (c + 1). simpl.
        split; [auto|split; [exact P|split; [lia|reflexivity]]].
      * right. exists n', k. simpl.
        split; [auto|split; [assumption|split; [lia|assumption]]].
    + rewrite E1 in H.
      destruct (IH _ _ _ _ H e He) as [Hin|[n' [k [? [? [? ?]]]]]]; auto.
      right. exists n', k. simpl; auto.
    + destruct (negb (in_bounds g n));
        rewrite ?E2 in H;
        (destruct (IH _ _ _ _ H e He) as [Hin|[n' [k [? [? [? ?]]]]]]; auto;
         right; exists n', k; simpl; auto).
Qed.

Lemma expand_pushed (ns : list cell) :
  forall fr c fr' c',
    expand g goal obstacles visited path ns fr c = (fr', c') ->
    forall n, In n ns -> pushable g obstacles visited n ->
    exists k, c < k <= c' /\ In (pushed goal path n k) fr'.
Proof.
  induction ns as [|n ns IH]; intros fr c fr' c' H x Hx Px; simpl in H.
  - destruct Hx.
  - destruct Hx as [->|Hx].
    + destruct (expand_cases x) as [[P [E1 E2]]|[P _]]; [|contradiction].
      rewrite E1, E2 in H. exists (c + 1).
      pose proof (expand_counter _ _ _ _ _ H).
      split; [lia|]. eapply expand_incl; eauto. simpl; auto.
    + destruct (negb (in_bounds g n)).
      { destruct (IH _ _ _ _ H x Hx Px) as [k [? ?]]. exists k; auto. }
      destruct (is_obstacle g obstacles n || mem n visited).
      { destruct (IH _ _ _ _ H x Hx Px) as [k [? ?]]. exists k; auto. }
      pose proof (expand_counter _ _ _ _ _ H).
      destruct (IH _ _ _ _ H x Hx Px) as [k [? ?]]. exists k; split; [lia|auto].
Qed.
End Expand.

(** ** The search loop: termination and an invariant rule *)

Lemma grid_cells_length (g : MultiGrid) :
  length (grid_cells g) = (Z.to_nat (width g) * Z.to_nat (height g))%nat.
Proof.
  unfold grid_cells, cell. rewrite length_prod, !length_map, !length_seq.
  reflexivity.
Qed.

Lemma in_bounds_spec (g : MultiGrid) (p : cell) :
  in_bounds g p = true <->
  0 <= fst p < width g /\ 0 <= snd p < height g.
Proof.
  unfold in_bounds. rewrite !andb_true_iff, !Z.leb_le, !Z.ltb_lt. lia.
Qed.

Lemma in_range_seq (n : Z) (x : Z) :
  0 <= x < n -> In x (map Z.of_nat (seq 0 (Z.to_nat n))).
Proof.
  intros H. apply in_map_iff. exists (Z.to_nat x). split; [lia|].
  apply in_seq. lia.
Qed.

Lemma in_bounds_grid_cells (g : MultiGrid) (p : cell) :
  in_bounds g p = true -> In p (grid_cells g).
Proof.
  intros H. apply in_bounds_spec in H. destruct p as [x y]. simpl in H.
  unfold grid_cells. apply in_prod; apply in_range_seq; lia.
Qed.

Lemma unvisited_le (c : cell) (vis U : list cell) :
  (length (unvisited (c :: vis) U) <= length (unvisited vis U))%nat.
Proof.
  induction U as [|u U IH]; simpl; auto.
  destruct (cell_eqb u c); simpl.
  - destruct (negb (mem u vis)); simpl; lia.
  - destruct (negb (mem u vis)); simpl; lia.
Qed.

Lemma unvisited_lt (c : cell) (vis U : list cell) :
  In c U -> mem c vis = false ->
  (length (unvisited (c :: vis) U) < length (unvisited vis U))%nat.
Proof.
  induction U as [|u U IH]; simpl; intros Hin Hm; [destruct Hin|].
  destruct Hin as [->|Hin].
  - rewrite cell_eqb_refl, Hm. simpl.
    pose proof (unvisited_le c vis U). unfold unvisited in *. simpl in *. lia.
  - specialize (IH Hin Hm). unfold unvisited in *. simpl in *.
    destruct (cell_eqb u c); simpl.
    + pose proof (unvisited_le c vis U). unfold unvisited in *. simpl in *.
      destruct (negb (mem u vis)); simpl; lia.
    + destruct (negb (mem u vis)); simpl; lia.
Qed.

Section Loop.
Variables (g : MultiGrid) (goal : cell) (obstacles : list Kind).

Lemma astar_loop_fuel (U : list cell) :
  (forall p, in_bounds g p = true -> In p U) ->
  forall fuel fr vis c,
    (forall e, In e fr -> In (e_pos e) U) ->
    (length fr + 4 * length (unvisited vis U) < fuel)%nat ->
    astar_loop fuel g goal obstacles fr vis c <> None.
Proof.
  intros HU. induction fuel as [|fuel IH]; intros fr vis c Hfr Hm; [lia|].
  simpl. destruct (pq_get fr) as [[e fr']|] eqn:Eg; [|discriminate].
  pose proof (Permutation_length (pq_get_perm _ _ _ Eg)) as Hlen.
  simpl in Hlen.
  destruct (cell_eqb (e_pos e) goal); [discriminate|].
  assert (He : In (e_pos e) U).
  { apply Hfr. apply (pq_get_In _ _ _ Eg). auto. }
  assert (Hfr' : forall x, In x fr' -> In (e_pos x) U).
  { intros x Hx. apply Hfr. apply (pq_get_In _ _ _ Eg). auto. }
  destruct (mem (e_pos e) vis) eqn:Em.
  - apply IH; auto. lia.
  - destruct (expand g goal obstacles (e_pos e :: vis) (e_path e)
                     (neighbors (e_pos e)) fr' c) as [fr'' c'] eqn:Ex.
    apply IH.
    + intros x Hx.
      destruct (expand_In _ _ _ _ _ _ _ _ _ _ Ex x Hx)
        as [Hin|[n [k [_ [[Hb _] [_ ->]]]]]]; auto.
    + pose proof (expand_length _ _ _ _ _ _ _ _ _ _ Ex) as Hl.
      pose proof (unvisited_lt _ _ _ He Em).
      assert (length (neighbors (e_pos e)) = 4%nat) by
        (destruct (e_pos e); reflexivity).
      lia.
Qed.

(** A rule for invariants of the loop: [Inv] holds of the loop state at
    the head of every iteration, [Post] of the value returned. *)
Lemma astar_loop_inv
    (Inv : list entry -> list cell -> Z -> Prop) (Post : list cell -> Prop) :
  (forall vis c, Inv [] vis c -> Post []) ->
  (forall fr vis c e fr',
      Inv fr vis c -> pq_get fr = Some (e, fr') -> e_pos e = goal ->
      Post (e_path e)) ->
  (forall fr vis c e fr',
      Inv fr vis c -> pq_get fr = Some (e, fr') -> e_pos e <> goal ->
      In (e_pos e) vis -> Inv fr' vis c) ->
  (forall fr vis c e fr' fr'' c',
      Inv fr vis c -> pq_get fr = Some (e, fr') -> e_pos e <> goal ->
      ~ In (e_pos e) vis ->
      expand g goal obstacles (e_pos e :: vis) (e_path e)
             (neighbors (e_pos e)) fr' c = (fr'', c') ->
      Inv fr'' (e_pos e :: vis) c') ->
  forall fuel fr vis c r,
    Inv fr vis c ->
    astar_loop fuel g goal obstacles fr vis c = Some r -> Post r.
Proof.
  intros Hempty Hgoal Hskip Hexp.
  induction fuel as [|fuel IH]; intros fr vis c r HI H; [discriminate|].
  simpl in H. destruct (pq_get fr) as [[e fr']|] eqn:Eg.
  - destruct (cell_eqb (e_pos e) goal) eqn:Ec.
    + apply cell_eqb_eq in Ec. inversion H; subst r. eauto.
    + apply cell_eqb_neq in Ec.
      destruct (mem (e_pos e) vis) eqn:Em.
      * apply mem_In in Em. eapply IH; [|exact H]. eauto.
      * apply mem_not_In in Em.
        destruct (expand g goal obstacles (e_pos e :: vis) (e_path e)
                         (neighbors (e_pos e)) fr' c) as [fr'' c'] eqn:Ex.
        eapply IH; [|exact H]. eauto.
  - apply pq_get_None in Eg. subst fr. inversion H; subst r. eauto.
Qed.
End Loop.

(** The search always ends within [astar_fuel] iterations. *)
Lemma astar_total (g : MultiGrid) (start goal : cell) (obstacles : list Kind) :
  astar_loop (astar_fuel g) g goal obstacles [mkEntry 0 0 start [start]] [] 0
  = Some (astar g start goal obstacles).
Proof.
  unfold astar.
  destruct (astar_loop (astar_fuel g) g goal obstacles
                       [mkEntry 0 0 start [start]] [] 0) eqn:E; auto.
  exfalso. revert E.
  apply (astar_loop_fuel g goal obstacles (start :: grid_cells g)).
  - intros p Hp. right. apply in_bounds_grid_cells; auto.
  - intros e [<-|[]]. simpl; auto.
  - unfold astar_fuel.
    assert (length (unvisited [] (start :: grid_cells g))
            <= S (length (grid_cells g)))%nat.
    { unfold unvisited. etransitivity; [apply filter_length_le|]. simpl; lia. }
    rewrite grid_cells_length in H.
    change (length [mkEntry 0 0 start [start]]) with 1%nat.
    set (n := length (unvisited [] (start :: grid_cells g))) in *.
    set (k := (Z.to_nat (width g) * Z.to_nat (height g))%nat) in *.
    lia.
Qed.

(** ** Routes *)

Section Routes.
Variables (g : MultiGrid) (obstacles : list Kind).

Lemma last_cons_default (l : list cell) (a d d' : cell) :
  last (a :: l) d = last (a :: l) d'.
Proof.
  revert a. induction l as [|b l IH]; intros a; simpl; auto.
  apply (IH b).
Qed.

Lemma walk_snoc (rest : list cell) :
  forall a n,
    walk g obstacles a rest ->
    In n (neighbors (last (a :: rest) a)) -> passable g obstacles n ->
    walk g obstacles a (rest ++ [n]).
Proof.
  induction rest as [|b r IH]; intros a n Hw Hn Hp.
  - simpl in *. auto.
  - destruct Hw as [H1 [H2 H3]]. simpl.
    split; [exact H1|split; [exact H2|]].
    apply IH; auto.
    change (last (a :: b :: r) a) with (last (b :: r) a) in Hn.
    rewrite (last_cons_default r b a b) in Hn. exact Hn.
Qed.

Lemma route_snoc (start a n : cell) (p : list cell) :
  route g obstacles start a p ->
  In n (neighbors a) -> passable g obstacles n ->
  route g obstacles start n (p ++ [n]).
Proof.
  intros [rest [-> [Hw Hl]]] Hn Hp. exists (rest ++ [n]).
  split; [reflexivity|]. split.
  - apply walk_snoc; auto. rewrite Hl; auto.
  - apply last_last.
Qed.

Lemma route_refl (start : cell) : route g obstacles start start [start].
Proof. exists []. simpl; auto. Qed.

Lemma route_nonempty (start goal : cell) (p : list cell) :
  route g obstacles start goal p -> p <> [].
Proof. intros [rest [-> _]]. discriminate. Qed.

(** A set of cells that contains [a] and is closed under passable
    neighbours contains every cell of a walk from [a]. *)
Lemma walk_closed (vis : list cell) :
  (forall v, In v vis -> forall n, In n (neighbors v) ->
             passable g obstacles n -> In n vis) ->
  forall rest a, In a vis -> walk g obstacles a rest ->
                 In (last (a :: rest) a) vis.
Proof.
  intros Hc. induction rest as [|b r IH]; intros a Ha Hw.
  - simpl; auto.
  - destruct Hw as [H1 [H2 H3]].
    assert (Hb : In b vis) by eauto.
    specialize (IH b Hb H3).
    replace (last (a :: b :: r) a) with (last (b :: r) b); auto.
    change (last (a :: b :: r) a) with (last (b :: r) a).
    apply last_cons_default.
Qed.
End Routes.

(** ** The contract of [astar] *)

Section Contract.
Variables (g : MultiGrid) (start goal : cell) (obstacles : list Kind).

Lemma search_inv_init : search_inv g start goal obstacles [mkEntry 0 0 start [start]] [] 0.
Proof.
  repeat split.
  - intros e [<-|[]]. apply route_refl.
  - intros [].
  - intros v [].
  - right. eexists; split; [left; reflexivity|reflexivity].
Qed.

Lemma search_correct (fuel : nat) :
  forall fr vis c r,
    search_inv g start goal obstacles fr vis c ->
    astar_loop fuel g goal obstacles fr vis c = Some r -> search_post g start goal obstacles r.
Proof.
  apply astar_loop_inv.
  - (* frontier empty *)
    intros vis c [_ [Hg [Hc Hs]]]. left. split; auto.
    intros [p [rest [-> [Hw Hl]]]].
    destruct Hs as [Hs|[e [[] _]]].
    apply Hg. rewrite <- Hl. apply (walk_closed g obstacles); auto.
    intros v Hv n Hn Hp. destruct (Hc v Hv n Hn Hp) as [|[e [[] _]]]; auto.
  - (* goal popped *)
    intros fr vis c e fr' [Hr _] Eg Hpos. right. rewrite <- Hpos.
    apply Hr. apply (pq_get_In _ _ _ Eg). auto.
  - (* already visited *)
    intros fr vis c e fr' [Hr [Hg [Hc Hs]]] Eg Hne Hv.
    pose proof (pq_get_In _ _ _ Eg) as HIn.
    repeat split; auto.
    + intros x Hx. apply Hr, HIn. auto.
    + intros v Hvv n Hn Hp.
      destruct (Hc v Hvv n Hn Hp) as [|[x [Hx Hxp]]]; auto.
      apply HIn in Hx. destruct Hx as [->|Hx]; [left; congruence|].
      right; eauto.
    + destruct Hs as [|[x [Hx Hxp]]]; auto.
      apply HIn in Hx. destruct Hx as [->|Hx]; [left; congruence|].
      right; eauto.
  - (* expansion *)
    intros fr vis c e fr' fr'' c' [Hr [Hg [Hc Hs]]] Eg Hne Hv Ex.
    pose proof (pq_get_In _ _ _ Eg) as HIn.
    assert (He : route g obstacles start (e_pos e) (e_path e)).
    { apply Hr, HIn; auto. }
    repeat split.
    + intros x Hx.
      destruct (expand_In _ _ _ _ _ _ _ _ _ _ Ex x Hx)
        as [Hin|[n [k [Hn [[Hb [Ho _]] [_ ->]]]]]].
      * apply Hr, HIn; auto.
      * simpl. eapply route_snoc; eauto. split; auto.
    + intros [E|E]; auto.
    + intros v Hvv n Hn Hp.
      destruct (mem n (e_pos e :: vis)) eqn:Em.
      { left. apply mem_In; auto. }
      destruct Hvv as [<-|Hvv].
      * right. destruct Hp as [Hb Ho].
        destruct (expand_pushed _ _ _ _ _ _ _ _ _ _ Ex n Hn)
          as [k [_ Hk]]; [split; auto|].
        eexists; split; [exact Hk|reflexivity].
      * destruct (Hc v Hvv n Hn Hp) as [Hin|[x [Hx Hxp]]];
          [left; right; auto|].
        apply HIn in Hx. destruct Hx as [->|Hx];
          [left; left; congruence|].
        right. exists x; split; auto.
        eapply expand_incl; eauto.
    + destruct Hs as [|[x [Hx Hxp]]]; [left; right; auto|].
      apply HIn in Hx. destruct Hx as [->|Hx]; [left; left; congruence|].
      right. exists x; split; auto. eapply expand_incl; eauto.
Qed.
End Contract.

Lemma astar_contract (g : MultiGrid) (start goal : cell) (obstacles : list Kind) :
  (astar g start goal obstacles = [] /\
   ~ reachable_cell g obstacles start goal) \/
  route g obstacles start goal (astar g start goal obstacles).
Proof.
  apply (search_correct g start goal obstacles (astar_fuel g)
           [mkEntry 0 0 start [start]] [] 0).
  - apply search_inv_init.
  - apply astar_total.
Qed.

Lemma astar_same_cell (g : MultiGrid) (start : cell) (obstacles : list Kind) :
  astar g start start obstacles = [start].
Proof.
  unfold astar, astar_fuel. rewrite Nat.add_comm. simpl.
  rewrite cell_eqb_refl. reflexivity.
Qed.

(** ** Optimality on a grid without obstacles *)

Lemma heuristic_nonneg (a b : cell) : 0 <= heuristic a b.
Proof. unfold heuristic. lia. Qed.

Lemma heuristic_zero (a b : cell) : heuristic a b = 0 -> a = b.
Proof.
  destruct a as [x y], b as [x' y']. unfold heuristic; simpl. intros H.
  f_equal; lia.
Qed.

Lemma heuristic_refl (a : cell) : heuristic a a = 0.
Proof. unfold heuristic. lia. Qed.

Lemma heuristic_neighbor (v n goal : cell) :
  In n (neighbors v) -> heuristic v goal - 1 <= heuristic n goal.
Proof.
  destruct v as [x y], goal as [gx gy]. unfold heuristic. simpl.
  intros [<-|[<-|[<-|[<-|[]]]]]; simpl; lia.
Qed.

(** Inside the grid, every cell other than the goal has a neighbour inside
    the grid that is one step nearer to the goal. *)
Lemma forward_neighbor (g : MultiGrid) (v goal : cell) :
  in_bounds g v = true -> in_bounds g goal = true -> v <> goal ->
  exists n, In n (neighbors v) /\ in_bounds g n = true /\
            heuristic n goal + 1 = heuristic v goal.
Proof.
  rewrite !in_bounds_spec. destruct v as [x y], goal as [gx gy]. simpl.
  intros Hv Hg Hne.
  destruct (Z.lt_trichotomy x gx) as [Hx|[Hx|Hx]].
  - exists (x + 1, y). rewrite in_bounds_spec. unfold heuristic. simpl.
    split; [auto|]. lia.
  - destruct (Z.lt_trichotomy y gy) as [Hy|[Hy|Hy]].
    + exists (x, y + 1). rewrite in_bounds_spec. unfold heuristic. simpl.
      split; [auto|]. lia.
    + subst. contradiction Hne. reflexivity.
    + exists (x, y - 1). rewrite in_bounds_spec. unfold heuristic. simpl.
      split; [auto 6|]. lia.
  - exists (x - 1, y). rewrite in_bounds_spec. unfold heuristic. simpl.
    split; [auto|]. lia.
Qed.

Section Optimal.
Variables (g : MultiGrid) (start goal : cell) (obstacles : list Kind).
Hypothesis start_in : in_bounds g start = true.
Hypothesis goal_in : in_bounds g goal = true.
Hypothesis no_obstacle :
  forall p, in_bounds g p = true -> is_obstacle g obstacles p = false.

Lemma opt_inv_init : opt_inv g start goal [mkEntry 0 0 start [start]] [] 0.
Proof.
  split; [|split; [|split]].
  - intros e [<-|[]]. unfold true_f. simpl. split; [auto|]. lia.
  - intros [].
  - intros v [].
  - right. eexists. split; [left; reflexivity|]. simpl. split; auto.
    apply heuristic_nonneg.
Qed.

(** Some frontier entry always carries the least possible score. *)
Lemma opt_inv_good (fr : list entry) (vis : list cell) (c : Z) :
  opt_inv g start goal fr vis c ->
  exists e, In e fr /\ e_f e <= heuristic start goal.
Proof.
  intros [_ [Hg [Hc Hs]]].
  destruct Hs as [Hs|[e [He [_ Hf]]]]; [|eauto].
  assert (H : forall k v, In v vis -> heuristic v goal <= Z.of_nat k ->
              exists e, In e fr /\ e_f e <= heuristic start goal).
  { induction k as [|k IH]; intros v Hv Hk.
    - exfalso. apply Hg. replace goal with v; auto.
      apply heuristic_zero. pose proof (heuristic_nonneg v goal). lia.
    - destruct (Hc v Hv) as [Hb Hn].
      assert (Hne : v <> goal) by (intros ->; auto).
      destruct (forward_neighbor g v goal Hb goal_in Hne)
        as [n [Hin [Hnb Hh]]].
      destruct (Hn n Hin Hnb Hh) as [Hnv|[e [He [_ Hf]]]]; [|eauto].
      apply (IH n Hnv). lia. }
  apply (H (Z.to_nat (heuristic start goal)) start Hs).
  pose proof (heuristic_nonneg start goal). lia.
Qed.

Lemma opt_inv_popped (fr : list entry) (vis : list cell) (c : Z)
      (e : entry) (fr' : list entry) :
  opt_inv g start goal fr vis c -> pq_get fr = Some (e, fr') ->
  true_f goal e = heuristic start goal.
Proof.
  intros HI Eg. destruct (opt_inv_good _ _ _ HI) as [x [Hx Hf]].
  destruct HI as [Ha _].
  pose proof (pq_get_In _ _ _ Eg) as HIn.
  assert (Hle : e_f e <= e_f x).
  { apply HIn in Hx. destruct Hx as [->|Hx]; [lia|].
    apply entry_leb_f. eapply pq_get_least; eauto. }
  destruct (Ha e) as [_ [H1 [H2|H2]]]; [apply HIn; auto| |]; lia.
Qed.

Lemma search_optimal (fuel : nat) :
  forall fr vis c r,
    opt_inv g start goal fr vis c ->
    astar_loop fuel g goal obstacles fr vis c = Some r ->
    Z.of_nat (length r) = heuristic start goal + 1.
Proof.
  apply astar_loop_inv.
  - intros vis c HI. destruct (opt_inv_good _ _ _ HI) as [x [[] _]].
  - intros fr vis c e fr' HI Eg Hpos.
    pose proof (opt_inv_popped _ _ _ _ _ HI Eg) as Hf.
    unfold true_f in Hf. rewrite Hpos, heuristic_refl in Hf. lia.
  - intros fr vis c e fr' HI Eg Hne Hv.
    destruct HI as [Ha [Hg [Hc Hs]]].
    pose proof (pq_get_In _ _ _ Eg) as HIn.
    split; [|split; [|split]]; auto.
    + intros x Hx. apply Ha, HIn. auto.
    + intros v Hvv. destruct (Hc v Hvv) as [Hb Hn]. split; auto.
      intros n Hin Hnb Hh.
      destruct (Hn n Hin Hnb Hh) as [|[x [Hx [Hxp Hxf]]]]; auto.
      apply HIn in Hx. destruct Hx as [->|Hx]; [left; congruence|].
      right; eauto.
    + destruct Hs as [|[x [Hx [Hxp Hxf]]]]; auto.
      apply HIn in Hx. destruct Hx as [->|Hx]; [left; congruence|].
      right; eauto.
  - intros fr vis c e fr' fr'' c' HI Eg Hne Hv Ex.
    pose proof (opt_inv_popped _ _ _ _ _ HI Eg) as Hf.
    destruct HI as [Ha [Hg [Hc Hs]]].
    pose proof (pq_get_In _ _ _ Eg) as HIn.
    destruct (Ha e) as [Heb _]; [apply HIn; auto|].
    unfold true_f in Hf.
    split; [|split; [|split]].
    + intros x Hx.
      destruct (expand_In _ _ _ _ _ _ _ _ _ _ Ex x Hx)
        as [Hin|[n [k [Hn [[Hb [Ho _]] [_ ->]]]]]].
      * apply Ha, HIn; auto.
      * unfold true_f. simpl. rewrite length_app. simpl.
        pose proof (heuristic_neighbor _ _ goal Hn).
        split; [auto|]. lia.
    + intros [E|E]; auto.
    + intros v Hvv.
      assert (Hvb : in_bounds g v = true).
      { destruct Hvv as [<-|Hvv]; auto. apply Hc; auto. }
      split; auto. intros n Hin Hnb Hh.
      destruct (mem n (e_pos e :: vis)) eqn:Em.
      { left. apply mem_In; auto. }
      destruct Hvv as [<-|Hvv].
      * right.
        destruct (expand_pushed _ _ _ _ _ _ _ _ _ _ Ex n Hin)
          as [k [_ Hk]]; [split; auto|].
        eexists; split; [exact Hk|]. simpl. split; auto. lia.
      * destruct (Hc v Hvv) as [_ Hn].
        destruct (Hn n Hin Hnb Hh) as [Hnv|[x [Hx [Hxp Hxf]]]];
          [left; right; auto|].
        apply HIn in Hx. destruct Hx as [->|Hx];
          [left; left; congruence|].
        right. exists x; split; auto.
        eapply expand_incl; eauto.
    + destruct Hs as [|[x [Hx [Hxp Hxf]]]]; [left; right; auto|].
      apply HIn in Hx. destruct Hx as [->|Hx]; [left; left; congruence|].
      right. exists x; split; auto. eapply expand_incl; eauto.
Qed.
End Optimal.

Lemma astar_open_grid_length (g : MultiGrid) (a b : cell)
    (obstacles : list Kind) :
  in_bounds g a = true -> in_bounds g b = true ->
  (forall p, in_bounds g p = true -> is_obstacle g obstacles p = false) ->
  Z.of_nat (length (astar g a b obstacles)) = heuristic a b + 1.
Proof.
  intros Ha Hb Ho.
  apply (search_optimal g a b obstacles Hb Ho (astar_fuel g)
           [mkEntry 0 0 a [a]] [] 0).
  - apply opt_inv_init; assumption.
  - apply astar_total.
Qed.

(** ** The search over an arbitrary priority queue *)

Lemma pq_get_heap_get (fr : list entry) (e : entry) (fr' : list entry) :
  pq_get fr = Some (e, fr') -> heap_get fr e fr'.
Proof.
  intros H. split; [apply pq_get_perm; auto|eapply pq_get_least; eauto].
Qed.

Lemma NoDup_map_inj {A B : Type} (f : A -> B) (l : list A) :
  NoDup (map f l) -> forall x y, In x l -> In y l -> f x = f y -> x = y.
Proof.
  induction l as [|a l IH]; simpl; intros Hnd x y Hx Hy E; [destruct Hx|].
  inversion Hnd as [|? ? Hnot Hnd']; subst.
  destruct Hx as [->|Hx], Hy as [->|Hy]; auto.
  - exfalso. apply Hnot. rewrite E. apply in_map; auto.
  - exfalso. apply Hnot. rewrite <- E. apply in_map; auto.
Qed.

Lemma heap_get_unique (fr1 fr2 : list entry) (e1 e2 : entry)
      (fr1' fr2' : list entry) :
  heap_get fr1 e1 fr1' -> heap_get fr2 e2 fr2' ->
  Permutation fr1 fr2 -> NoDup (map e_counter fr1) ->
  e1 = e2 /\ Permutation fr1' fr2'.
Proof.
  intros [P1 L1] [P2 L2] P Hnd.
  assert (H1 : In e1 fr1).
  { apply (Permutation_in _ (Permutation_sym P1)). simpl; auto. }
  assert (H2 : In e2 fr1).
  { apply (Permutation_in _ (Permutation_sym P)).
    apply (Permutation_in _ (Permutation_sym P2)). simpl; auto. }
  assert (E : e1 = e2).
  { pose proof (Permutation_in _ P2 (Permutation_in _ P H1)) as A.
    pose proof (Permutation_in _ P1 H2) as B.
    destruct A as [A|A]; [auto|]. destruct B as [B|B]; [auto|].
    apply (NoDup_map_inj e_counter fr1 Hnd); auto.
    apply (entry_leb_antisym e1 e2); auto. }
  split; auto. subst e2.
  apply (Permutation_cons_inv (a := e1)).
  eapply perm_trans; [apply Permutation_sym; exact P1|].
  eapply perm_trans; [exact P|exact P2].
Qed.

Lemma keys_ok_perm (fr fr' : list entry) (c : Z) :
  Permutation fr fr' -> keys_ok fr c -> keys_ok fr' c.
Proof.
  intros P [Hn Hc]. split.
  - eapply Permutation_NoDup; [apply Permutation_map; exact P|exact Hn].
  - intros e He. apply Hc. apply (Permutation_in _ (Permutation_sym P)); auto.
Qed.

Lemma keys_ok_tail (e : entry) (fr : list entry) (c : Z) :
  keys_ok (e :: fr) c -> keys_ok fr c.
Proof.
  intros [Hn Hc]. split.
  - inversion Hn; auto.
  - intros x Hx. apply Hc. simpl; auto.
Qed.

Lemma expand_keys (g : MultiGrid) (goal : cell) (obstacles : list Kind)
      (visited path : list cell) (ns : list cell) :
  forall fr c fr' c',
    keys_ok fr c ->
    expand g goal obstacles visited path ns fr c = (fr', c') ->
    keys_ok fr' c'.
Proof.
  induction ns as [|n ns IH]; intros fr c fr' c' K H; simpl in H.
  - inversion H; subst; auto.
  - destruct (negb (in_bounds g n)); [eauto|].
    destruct (is_obstacle g obstacles n || mem n visited); [eauto|].
    eapply IH; [|exact H]. destruct K as [Hn Hc]. split.
    + simpl. constructor; auto. intros Hin. apply in_map_iff in Hin.
      destruct Hin as [x [Ex Hx]]. apply Hc in Hx. lia.
    + intros x [<-|Hx]; simpl; [lia|]. apply Hc in Hx. lia.
Qed.

Lemma expand_perm (g : MultiGrid) (goal : cell) (obstacles : list Kind)
      (visited path : list cell) (ns : list cell) (fr1 fr2 : list entry)
      (c : Z) (fr1' fr2' : list entry) (c1 c2 : Z) :
  Permutation fr1 fr2 ->
  expand g goal obstacles visited path ns fr1 c = (fr1', c1) ->
  expand g goal obstacles visited path ns fr2 c = (fr2', c2) ->
  Permutation fr1' fr2' /\ c1 = c2.
Proof.
  intros P H1 H2. rewrite expand_app in H1, H2.
  inversion H1; inversion H2; subst. split; auto.
  apply Permutation_app_head; auto.
Qed.

Lemma heap_get_nil (e : entry) (fr' : list entry) : ~ heap_get [] e fr'.
Proof. intros [P _]. apply Permutation_nil in P. discriminate. Qed.

Lemma astar_run_unique (g : MultiGrid) (goal : cell) (obstacles : list Kind) :
  forall fr1 vis c r1,
    astar_run g goal obstacles fr1 vis c r1 ->
    forall fr2 r2,
      Permutation fr1 fr2 -> keys_ok fr1 c ->
      astar_run g goal obstacles fr2 vis c r2 -> r1 = r2.
Proof.
  induction 1 as [vis c|fr vis c e fr' Hg Hp|fr vis c e fr' r Hg Hp Hv Hr IH
                  |fr vis c e fr' fr'' c' r Hg Hp Hv Ex Hr IH];
    intros fr2 r2 P K R2.
  - apply Permutation_nil in P. subst fr2.
    inversion R2; subst; auto;
      match goal with H : heap_get [] _ _ |- _ =>
        destruct (heap_get_nil _ _ H) end.
  - inversion R2; subst.
    + apply Permutation_sym, Permutation_nil in P. subst.
      destruct (heap_get_nil _ _ Hg).
    + destruct (heap_get_unique _ _ _ _ _ _ Hg H P (proj1 K)) as [<- _]; auto.
    + destruct (heap_get_unique _ _ _ _ _ _ Hg H P (proj1 K)) as [<- _].
      contradiction.
    + destruct (heap_get_unique _ _ _ _ _ _ Hg H P (proj1 K)) as [<- _].
      contradiction.
  - assert (K' : keys_ok fr' c).
    { eapply keys_ok_tail, keys_ok_perm; [apply (proj1 Hg)|exact K]. }
    inversion R2; subst.
    + apply Permutation_sym, Permutation_nil in P. subst.
      destruct (heap_get_nil _ _ Hg).
    + destruct (heap_get_unique _ _ _ _ _ _ Hg H P (proj1 K)) as [<- _].
      contradiction.
    + destruct (heap_get_unique _ _ _ _ _ _ Hg H P (proj1 K)) as [<- P'].
      eapply IH; eauto.
    + destruct (heap_get_unique _ _ _ _ _ _ Hg H P (proj1 K)) as [<- _].
      contradiction.
  - assert (K' : keys_ok fr' c).
    { eapply keys_ok_tail, keys_ok_perm; [apply (proj1 Hg)|exact K]. }
    inversion R2; subst.
    + apply Permutation_sym, Permutation_nil in P. subst.
      destruct (heap_get_nil _ _ Hg).
    + destruct (heap_get_unique _ _ _ _ _ _ Hg H P (proj1 K)) as [<- _].
      contradiction.
    + destruct (heap_get_unique _ _ _ _ _ _ Hg H P (proj1 K)) as [<- _].
      contradiction.
    + destruct (heap_get_unique _ _ _ _ _ _ Hg H P (proj1 K)) as [<- P'].
      match goal with
      | H3 : expand _ _ _ _ _ _ _ _ = (?f2, ?c2) |- _ =>
          destruct (expand_perm _ _ _ _ _ _ _ _ _ _ _ _ _ P' Ex H3) as [P'' <-]
      end.
      eapply IH; eauto. eapply expand_keys; eauto.
Qed.

(** The model with the list queue is one of these runs. *)
Lemma astar_loop_run (g : MultiGrid) (goal : cell) (obstacles : list Kind) :
  forall fuel fr vis c r,
    astar_loop fuel g goal obstacles fr vis c = Some r ->
    astar_run g goal obstacles fr vis c r.
Proof.
  induction fuel as [|fuel IH]; intros fr vis c r H; [discriminate|].
  simpl in H. destruct (pq_get fr) as [[e fr']|] eqn:Eg.
  - apply pq_get_heap_get in Eg.
    destruct (cell_eqb (e_pos e) goal) eqn:Ec.
    + apply cell_eqb_eq in Ec. inversion H; subst r. eapply run_goal; eauto.
    + apply cell_eqb_neq in Ec.
      destruct (mem (e_pos e) vis) eqn:Em.
      * apply mem_In in Em. eapply run_skip; eauto.
      * apply mem_not_In in Em.
        destruct (expand g goal obstacles (e_pos e :: vis) (e_path e)
                         (neighbors (e_pos e)) fr' c) as [fr'' c'] eqn:Ex.
        eapply run_expand; eauto.
  - apply pq_get_None in Eg. subst fr. inversion H; subst r. constructor.
Qed.

Lemma astar_returns_astar (g : MultiGrid) (start goal : cell)
      (obstacles : list Kind) :
  astar_returns g start goal obstacles (astar g start goal obstacles).
Proof. eapply astar_loop_run. apply astar_total. Qed.

(** C10: two calls of [astar] with the same grid, start, goal and obstacle
    kinds return the same list, whatever arrangement the priority queue
    keeps its entries in. *)
Theorem astar_deterministic (g : MultiGrid) (start goal : cell)
    (obstacles : list Kind) (r1 r2 : list cell) :
  astar_returns g start goal obstacles r1 ->
  astar_returns g start goal obstacles r2 ->
  r1 = r2.
Proof.
  intros H1 H2.
  eapply (astar_run_unique g goal obstacles _ _ _ _ H1); eauto.
  split.
  - simpl. constructor; [intros []|constructor].
  - intros e [<-|[]]. simpl. lia.
Qed.

(** ** The vehicle's action: effect on the model *)

Lemma _follow_path_model (m : WarehouseModel) (self : AGVAgent) :
  fst (_follow_path m self) = m \/
  exists next,
    no_agv_at (grid m) next /\
    fst (_follow_path m self) =
    set_grid m (move_agent (grid m) (occ_of self) (pos self) next).
Proof.
  unfold _follow_path. destruct (path self) as [|next rest]; [left; reflexivity|].
  unfold get_cell_list_contents.
  destruct (filter _ (cells (grid m) next)) eqn:E; [|left; reflexivity].
  right. exists next. split; [exact E|].
  destruct (state_eqb (state self) WAITING); reflexivity.
Qed.

Lemma AGVAgent_step_model (m : WarehouseModel) (self : AGVAgent) :
  fst (AGVAgent_step m self) = m \/
  fst (AGVAgent_step m self) = snd (assign_task_to_agv m) \/
  exists next,
    no_agv_at (grid m) next /\
    fst (AGVAgent_step m self) =
    set_grid m (move_agent (grid m) (occ_of self) (pos self) next).
Proof.
  unfold AGVAgent_step.
  destruct (Qlt_bool (battery_level self) low_battery_threshold
            && negb (state_eqb (state self) CHARGING)); [left; reflexivity|].
  destruct (state self) eqn:Es.
  - right; left. unfold _handle_idle_state.
    destruct (assign_task_to_agv m) as [[t|] m']; reflexivity.
  - destruct (_follow_path_model m self) as [H|[next [Hn H]]];
      destruct (_follow_path m self) as [m' self']; simpl in H; subst m'.
    + left. destruct (path self'); [destruct (task self')|]; reflexivity.
    + right; right. exists next. split; auto.
      destruct (path self'); [destruct (task self')|]; reflexivity.
  - destruct (_follow_path_model m self) as [H|[next [Hn H]]];
      destruct (_follow_path m self) as [m' self']; simpl in H; subst m'.
    + left. destruct (path self'); reflexivity.
    + right; right. exists next. split; auto.
      destruct (path self'); reflexivity.
  - unfold _charge_battery.
    destruct (existsb _ _).
    + left. destruct (Qle_bool _ _); reflexivity.
    + destruct (_follow_path_model m self) as [H|[next [Hn H]]]; auto.
      right; right. eauto.
  - left; reflexivity.
Qed.

(** ** No double occupancy *)

Lemma filter_remove_occ_le (f : Occupant -> bool) (a : Occupant)
      (l : list Occupant) :
  (length (filter f (remove_occ a l)) <= length (filter f l))%nat.
Proof.
  induction l as [|b l IH]; simpl; auto.
  destruct (occ_eqb a b); simpl.
  - destruct (f b); simpl; lia.
  - destruct (f b); simpl; lia.
Qed.

Lemma agv_count_remove_agent (g : MultiGrid) (a : Occupant) (from p : cell) :
  (agv_count (remove_agent g a from) p <= agv_count g p)%nat.
Proof.
  unfold agv_count, remove_agent, set_cell. simpl.
  destruct (cell_eqb p from) eqn:E; [|lia].
  apply cell_eqb_eq in E. subst. apply filter_remove_occ_le.
Qed.

Lemma cells_place_agent (g : MultiGrid) (a : Occupant) (to p : cell) :
  cells (place_agent g a to) p =
  if cell_eqb p to then cells g to ++ [a] else cells g p.
Proof. reflexivity. Qed.

Lemma agv_count_move_agent (g : MultiGrid) (self : AGVAgent) (next p : cell) :
  no_agv_at g next ->
  (agv_count g p <= 1)%nat ->
  (agv_count (move_agent g (occ_of self) (pos self) next) p <= 1)%nat.
Proof.
  intros Hn Hp. unfold move_agent.
  pose proof (agv_count_remove_agent g (occ_of self) (pos self) p) as Hr.
  pose proof (agv_count_remove_agent g (occ_of self) (pos self) next) as Hr'.
  unfold agv_count in *. rewrite cells_place_agent.
  destruct (cell_eqb p next) eqn:E.
  - unfold no_agv_at in Hn. rewrite Hn in Hr'.
    rewrite filter_app, length_app. simpl in *. lia.
  - lia.
Qed.

Lemma _generate_tasks_grid (m : WarehouseModel) (n : nat) :
  grid (_generate_tasks m n) = grid m.
Proof.
  unfold _generate_tasks.
  destruct (positions_of ShelfAgent (agents m)); auto.
  destruct (positions_of DropoffPointAgent (agents m)); auto.
  destruct (generate_loop _ _ _ _ _ _ _); reflexivity.
Qed.

Lemma _generate_tasks_agents (m : WarehouseModel) (n : nat) :
  agents (_generate_tasks m n) = agents m.
Proof.
  unfold _generate_tasks.
  destruct (positions_of ShelfAgent (agents m)); auto.
  destruct (positions_of DropoffPointAgent (agents m)); auto.
  destruct (generate_loop _ _ _ _ _ _ _); reflexivity.
Qed.

Lemma assign_task_to_agv_grid (m : WarehouseModel) :
  grid (snd (assign_task_to_agv m)) = grid m.
Proof.
  unfold assign_task_to_agv. destruct (available_tasks m); auto. simpl.
  destruct (length l <? 10)%nat; auto. rewrite _generate_tasks_grid. reflexivity.
Qed.

Lemma assign_task_to_agv_agents (m : WarehouseModel) :
  agents (snd (assign_task_to_agv m)) = agents m.
Proof.
  unfold assign_task_to_agv. destruct (available_tasks m); auto. simpl.
  destruct (length l <? 10)%nat; auto. rewrite _generate_tasks_agents.
  reflexivity.
Qed.

Lemma AGVAgent_step_no_double (m : WarehouseModel) (self : AGVAgent) :
  no_double_occupancy m -> no_double_occupancy (fst (AGVAgent_step m self)).
Proof.
  intros H.
  destruct (AGVAgent_step_model m self) as [E|[E|[next [Hn E]]]]; rewrite E.
  - exact H.
  - intros p. rewrite assign_task_to_agv_grid. apply H.
  - intros p. simpl. apply agv_count_move_agent; auto.
Qed.

Lemma agent_turn_no_double (m : WarehouseModel) (id : nat) :
  no_double_occupancy m -> no_double_occupancy (agent_turn m id).
Proof.
  intros H. unfold agent_turn.
  destruct (find_agv (agents m) id) as [self|]; auto.
  pose proof (AGVAgent_step_no_double m self H) as H'.
  destruct (AGVAgent_step m self) as [m' self']. exact H'.
Qed.

(** C7: if every cell holds at most one vehicle, then after a tick, in
    whatever order the vehicles act, every cell again holds at most one
    vehicle. *)
Theorem step_no_double_occupancy (order : list nat) (m : WarehouseModel) :
  no_double_occupancy m ->
  no_double_occupancy (WarehouseModel_step order m).
Proof.
  unfold WarehouseModel_step. revert m.
  induction order as [|id order IH]; intros m H; simpl; auto.
  apply IH. apply agent_turn_no_double; auto.
Qed.

(** ** Battery *)

Lemma _calculate_path_to_battery (m : WarehouseModel) (self : AGVAgent)
      (d : cell) :
  battery_level (_calculate_path_to m self d) = battery_level self.
Proof.
  unfold _calculate_path_to. simpl.
  destruct (astar _ _ _ _); reflexivity.
Qed.

Lemma _calculate_path_to_pos (m : WarehouseModel) (self : AGVAgent)
      (d : cell) :
  pos (_calculate_path_to m self d) = pos self.
Proof.
  unfold _calculate_path_to. simpl.
  destruct (astar _ _ _ _); reflexivity.
Qed.

Lemma drain_bounds (b : Q) :
  (0 <= b /\ b <= 100)%Q ->
  (0 <= Qmax 0 (b - battery_drain_rate) /\
   Qmax 0 (b - battery_drain_rate) <= 100 /\
   Qmax 0 (b - battery_drain_rate) <= b)%Q.
Proof.
  intros [H0 H1]. unfold battery_drain_rate.
  split; [apply Q.le_max_l|]. split; apply Q.max_lub; lra.
Qed.

Lemma charge_bounds (b : Q) :
  (0 <= b /\ b <= 100)%Q ->
  (0 <= Qmin 100 (b + battery_charge_rate) /\
   Qmin 100 (b + battery_charge_rate) <= 100 /\
   b <= Qmin 100 (b + battery_charge_rate))%Q.
Proof.
  intros [H0 H1]. unfold battery_charge_rate.
  split; [apply Q.min_glb; lra|]. split; [apply Q.le_min_l|].
  apply Q.min_glb; lra.
Qed.

Lemma _follow_path_battery (m : WarehouseModel) (self : AGVAgent) :
  battery_ok self ->
  battery_ok (snd (_follow_path m self)) /\
  (battery_level (snd (_follow_path m self)) <= battery_level self)%Q.
Proof.
  intros H. unfold _follow_path.
  destruct (path self) as [|next rest]; [split; [exact H|apply Qle_refl]|].
  destruct (filter _ _); [|split; [exact H|apply Qle_refl]].
  destruct (drain_bounds _ H) as [A [B C]].
  destruct (state_eqb (state self) WAITING); simpl; (split; [split|]; auto).
Qed.

Lemma _follow_path_pos (m : WarehouseModel) (self : AGVAgent) :
  pos (snd (_follow_path m self)) <> pos self ->
  battery_level (snd (_follow_path m self)) =
  Qmax 0 (battery_level self - battery_drain_rate).
Proof.
  unfold _follow_path.
  destruct (path self) as [|next rest]; [simpl; congruence|].
  destruct (filter _ _); [|simpl; congruence].
  destruct (state_eqb (state self) WAITING); reflexivity.
Qed.

Lemma AGVAgent_step_battery (m : WarehouseModel) (self : AGVAgent) :
  battery_ok self ->
  battery_ok (snd (AGVAgent_step m self)) /\
  (charging_at_station m self = false ->
   battery_level (snd (AGVAgent_step m self)) <= battery_level self)%Q /\
  (charging_at_station m self = true ->
   battery_level self <= battery_level (snd (AGVAgent_step m self)))%Q /\
  (pos (snd (AGVAgent_step m self)) <> pos self ->
   battery_level (snd (AGVAgent_step m self)) <= battery_level self)%Q.
Proof.
  intros H.
  assert (K : battery_ok (snd (AGVAgent_step m self)) /\
    (charging_at_station m self = false ->
     battery_level (snd (AGVAgent_step m self)) <= battery_level self)%Q /\
    (charging_at_station m self = true ->
     battery_level self <= battery_level (snd (AGVAgent_step m self)) /\
     pos (snd (AGVAgent_step m self)) = pos self)%Q).
  { unfold AGVAgent_step, charging_at_station.
    destruct (Qlt_bool (battery_level self) low_battery_threshold
              && negb (state_eqb (state self) CHARGING)) eqn:Eb.
    - simpl. unfold _start_charging.
      apply andb_true_iff in Eb. destruct Eb as [_ Eb].
      apply negb_true_iff in Eb. rewrite Eb. simpl.
      destruct (positions_of ChargingStationAgent (agents m)).
      + split; [exact H|]. split; [intros _; apply Qle_refl|discriminate].
      + unfold battery_ok. rewrite _calculate_path_to_battery. simpl.
        split; [exact H|]. split; [intros _; apply Qle_refl|discriminate].
    - destruct (state self) eqn:Es; simpl.
      + unfold _handle_idle_state.
        destruct (assign_task_to_agv m) as [[t|] m']; simpl;
          unfold battery_ok; rewrite ?_calculate_path_to_battery; simpl;
          (split; [exact H|]; split; [intros _; apply Qle_refl|discriminate]).
      + destruct (_follow_path_battery m self H) as [A B].
        destruct (_follow_path m self) as [m' self']. simpl in A, B.
        destruct (path self'); [destruct (task self')|]; simpl;
          unfold battery_ok; rewrite ?_calculate_path_to_battery; simpl;
          (split; [exact A|]; split; [intros _; exact B|discriminate]).
      + destruct (_follow_path_battery m self H) as [A B].
        destruct (_follow_path m self) as [m' self']. simpl in A, B.
        destruct (path self'); simpl;
          (split; [exact A|]; split; [intros _; exact B|discriminate]).
      + unfold _charge_battery.
        destruct (existsb _ (get_cell_list_contents (grid m) (pos self))).
        * destruct (charge_bounds _ H) as [A [B C]].
          destruct (Qle_bool _ _); simpl;
            (split; [split; assumption|]; split; [discriminate|auto]).
        * destruct (_follow_path_battery m self H) as [A B].
          split; [exact A|]. split; [intros _; exact B|discriminate].
      + split; [exact H|]. split; [intros _; apply Qle_refl|discriminate]. }
  destruct K as [K1 [K2 K3]]. split; [exact K1|]. split; [exact K2|].
  split; [intros E; apply K3; exact E|].
  intros Hp. destruct (charging_at_station m self) eqn:E.
  - destruct (K3 eq_refl) as [_ Hq]. contradiction.
  - apply K2; reflexivity.
Qed.

(** ** Invariants of the model *)

(** *** The agent list *)

Lemma find_agv_In (l : list Agent) (id : nat) (a : AGVAgent) :
  find_agv l id = Some a -> In (Vehicle a) l.
Proof.
  induction l as [|x l IH]; simpl; [discriminate|].
  destruct x as [k i p|b]; [auto|].
  destruct (Nat.eqb (unique_id b) id); [|auto].
  intros E; inversion E; auto.
Qed.

Lemma store_agv_In (l : list Agent) (a' a : AGVAgent) :
  In (Vehicle a) (store_agv l a') -> a = a' \/ In (Vehicle a) l.
Proof.
  unfold store_agv. rewrite in_map_iff. intros [x [E Hx]].
  destruct x as [k i p|b]; [discriminate|].
  destruct (Nat.eqb (unique_id b) (unique_id a')); inversion E; subst; auto.
Qed.

Lemma positions_of_store_agv (k : Kind) (l : list Agent) (a' : AGVAgent) :
  k <> AGVAgentK ->
  positions_of k (store_agv l a') = positions_of k l.
Proof.
  intros Hk. unfold positions_of, store_agv.
  induction l as [|x l IH]; simpl; auto.
  destruct x as [k' i p|b]; simpl.
  - destruct (kind_eqb k' k); simpl; congruence.
  - destruct (Nat.eqb (unique_id b) (unique_id a')); destruct k; simpl; auto;
      congruence.
Qed.

Lemma positions_of_app (k : Kind) (l l' : list Agent) :
  positions_of k (l ++ l') = positions_of k l ++ positions_of k l'.
Proof. unfold positions_of. rewrite filter_app, map_app. reflexivity. Qed.

Lemma AGVAgent_step_agents (m : WarehouseModel) (self : AGVAgent) :
  agents (fst (AGVAgent_step m self)) = agents m.
Proof.
  destruct (AGVAgent_step_model m self) as [E|[E|[next [_ E]]]]; rewrite E.
  - reflexivity.
  - apply assign_task_to_agv_agents.
  - reflexivity.
Qed.

(** *** The grid keeps its shelves *)

Lemma existsb_remove_occ (k : Kind) (a : Occupant) (l : list Occupant) :
  occ_kind a <> k ->
  existsb (fun x => isinstance x [k]) (remove_occ a l) =
  existsb (fun x => isinstance x [k]) l.
Proof.
  intros Hk. induction l as [|b l IH]; cbn [remove_occ existsb]; auto.
  destruct (occ_eqb a b) eqn:E; cbn [existsb]; [|rewrite IH; reflexivity].
  unfold occ_eqb in E. apply andb_true_iff in E. destruct E as [E _].
  assert (Hb : isinstance b [k] = false).
  { unfold isinstance. simpl. rewrite orb_false_r.
    destruct (occ_kind a), (occ_kind b), k; simpl in *; congruence. }
  rewrite Hb. reflexivity.
Qed.

Lemma is_obstacle_place_agent (g : MultiGrid) (a : Occupant) (to p : cell)
      (ks : list Kind) :
  is_obstacle g ks p = true -> is_obstacle (place_agent g a to) ks p = true.
Proof.
  unfold is_obstacle, get_cell_list_contents. rewrite cells_place_agent.
  destruct (cell_eqb p to) eqn:E; auto.
  apply cell_eqb_eq in E. subst. rewrite existsb_app. intros ->. reflexivity.
Qed.

Lemma is_obstacle_move_agent (g : MultiGrid) (self : AGVAgent)
      (next p : cell) :
  is_obstacle g [ShelfAgent] p = true ->
  is_obstacle (move_agent g (occ_of self) (pos self) next) [ShelfAgent] p
  = true.
Proof.
  intros H. unfold move_agent. apply is_obstacle_place_agent.
  unfold is_obstacle, get_cell_list_contents, remove_agent, set_cell in *.
  cbn [cells]. destruct (cell_eqb p (pos self)) eqn:E; auto.
  apply cell_eqb_eq in E. subst. rewrite existsb_remove_occ; auto.
  unfold occ_of. cbn [occ_kind]. discriminate.
Qed.

(** *** The dispatcher *)

Lemma random_choice_In {A : Type} (r : Random) (d : A) (rest : list A) :
  In (fst (random_choice r d rest)) (d :: rest).
Proof.
  unfold random_choice. cbn [fst]. apply nth_In.
  cbn [length]. apply Nat.mod_upper_bound. discriminate.
Qed.

Lemma generate_loop_length (n : nat) (s0 : cell) (ss : list cell) (d0 : cell)
      (ds : list cell) :
  forall tasks r,
    length (fst (generate_loop n s0 ss d0 ds tasks r)) = (length tasks + n)%nat.
Proof.
  induction n as [|n IH]; intros tasks r; cbn [generate_loop fst]; [lia|].
  destruct (random_choice r s0 ss) as [p r1].
  destruct (random_choice r1 d0 ds) as [d r2].
  rewrite IH, length_app. simpl. lia.
Qed.

Lemma generate_loop_pickups (n : nat) (s0 : cell) (ss : list cell) (d0 : cell)
      (ds : list cell) :
  forall tasks r t,
    In t (fst (generate_loop n s0 ss d0 ds tasks r)) ->
    In t tasks \/ In (pickup t) (s0 :: ss).
Proof.
  induction n as [|n IH]; intros tasks r t; cbn [generate_loop fst]; [auto|].
  pose proof (random_choice_In r s0 ss) as Hp.
  destruct (random_choice r s0 ss) as [p r1].
  destruct (random_choice r1 d0 ds) as [d r2]. cbn [fst] in Hp.
  intros H. apply IH in H. destruct H as [H|H]; auto.
  apply in_app_or in H. destruct H as [H|[<-|[]]]; auto.
Qed.

Lemma _generate_tasks_on_shelves (m : WarehouseModel) (n : nat) :
  tasks_on_shelves m -> tasks_on_shelves (_generate_tasks m n).
Proof.
  intros H t. rewrite _generate_tasks_agents. unfold _generate_tasks.
  destruct (positions_of ShelfAgent (agents m)) as [|s0 ss] eqn:Es.
  { intros Ht. apply H in Ht. rewrite Es in Ht. exact Ht. }
  destruct (positions_of DropoffPointAgent (agents m)) as [|d0 ds].
  { intros Ht. apply H in Ht. rewrite Es in Ht. exact Ht. }
  pose proof (generate_loop_pickups n s0 ss d0 ds (available_tasks m)
                                    (random m) t) as G.
  destruct (generate_loop n s0 ss d0 ds (available_tasks m) (random m))
    as [tasks r]. simpl in *. intros Ht.
  destruct (G Ht) as [Hin|Hin]; auto. apply H in Hin. rewrite Es in Hin.
  exact Hin.
Qed.

Lemma _generate_tasks_length (m : WarehouseModel) (n : nat) :
  positions_of ShelfAgent (agents m) <> [] ->
  positions_of DropoffPointAgent (agents m) <> [] ->
  length (available_tasks (_generate_tasks m n)) =
  (length (available_tasks m) + n)%nat.
Proof.
  intros Hs Hd. unfold _generate_tasks.
  destruct (positions_of ShelfAgent (agents m)) as [|s0 ss]; [congruence|].
  destruct (positions_of DropoffPointAgent (agents m)) as [|d0 ds];
    [congruence|].
  pose proof (generate_loop_length n s0 ss d0 ds (available_tasks m)
                                   (random m)) as G.
  destruct (generate_loop n s0 ss d0 ds (available_tasks m) (random m))
    as [tasks r]. simpl in *. exact G.
Qed.

Lemma assign_task_to_agv_on_shelves (m : WarehouseModel) :
  tasks_on_shelves m -> tasks_on_shelves (snd (assign_task_to_agv m)).
Proof.
  intros H. unfold assign_task_to_agv.
  destruct (available_tasks m) as [|t rest] eqn:Et; [exact H|]. simpl.
  assert (H' : tasks_on_shelves (set_available_tasks m rest)).
  { intros x Hx. apply H. rewrite Et. simpl in *. auto. }
  destruct (length rest <? 10)%nat; auto.
  apply _generate_tasks_on_shelves; auto.
Qed.

Lemma assign_task_to_agv_backlog (m : WarehouseModel) :
  backlog_ok m -> backlog_ok (snd (assign_task_to_agv m)).
Proof.
  intros [Hs [Hd Hl]]. unfold backlog_ok.
  rewrite assign_task_to_agv_agents. split; auto. split; auto.
  unfold assign_task_to_agv.
  destruct (available_tasks m) as [|t rest] eqn:Et; [simpl in Hl; lia|].
  simpl in *. destruct (length rest <? 10)%nat eqn:E.
  - rewrite _generate_tasks_length; auto. simpl. lia.
  - apply Nat.ltb_ge in E. simpl. exact E.
Qed.

(** *** One vehicle's turn *)

Lemma AGVAgent_step_tasks (m : WarehouseModel) (self : AGVAgent) :
  available_tasks (fst (AGVAgent_step m self)) = available_tasks m \/
  available_tasks (fst (AGVAgent_step m self)) =
  available_tasks (snd (assign_task_to_agv m)).
Proof.
  destruct (AGVAgent_step_model m self) as [E|[E|[next [_ E]]]]; rewrite E;
    auto.
Qed.

Lemma AGVAgent_step_shelves (m : WarehouseModel) (self : AGVAgent) (p : cell) :
  is_obstacle (grid m) [ShelfAgent] p = true ->
  is_obstacle (grid (fst (AGVAgent_step m self))) [ShelfAgent] p = true.
Proof.
  intros H.
  destruct (AGVAgent_step_model m self) as [E|[E|[next [_ E]]]]; rewrite E.
  - exact H.
  - rewrite assign_task_to_agv_grid. exact H.
  - simpl. apply is_obstacle_move_agent. exact H.
Qed.

Section Turn.
Variables (m : WarehouseModel) (id : nat).

Lemma agent_turn_positions (k : Kind) :
  k <> AGVAgentK ->
  positions_of k (agents (agent_turn m id)) = positions_of k (agents m).
Proof.
  intros Hk. unfold agent_turn.
  destruct (find_agv (agents m) id) as [self|]; auto.
  pose proof (AGVAgent_step_agents m self) as E.
  destruct (AGVAgent_step m self) as [m' self']. simpl in *.
  rewrite positions_of_store_agv, E; auto.
Qed.

Lemma agent_turn_batteries : batteries_ok m -> batteries_ok (agent_turn m id).
Proof.
  intros H. unfold agent_turn.
  destruct (find_agv (agents m) id) as [self|] eqn:Ef; auto.
  pose proof (AGVAgent_step_agents m self) as E.
  pose proof (AGVAgent_step_battery m self (H _ (find_agv_In _ _ _ Ef)))
    as [B _].
  destruct (AGVAgent_step m self) as [m' self']. simpl in *.
  intros a Ha. simpl in Ha. apply store_agv_In in Ha.
  destruct Ha as [->|Ha]; auto. apply H. rewrite <- E. exact Ha.
Qed.

Lemma agent_turn_shelves : shelves_on_grid m -> shelves_on_grid (agent_turn m id).
Proof.
  intros H p. rewrite agent_turn_positions by discriminate. intros Hp.
  specialize (H p Hp). unfold agent_turn.
  destruct (find_agv (agents m) id) as [self|]; auto.
  pose proof (AGVAgent_step_shelves m self p H) as E.
  destruct (AGVAgent_step m self) as [m' self']. exact E.
Qed.

Lemma agent_turn_tasks :
  available_tasks (agent_turn m id) = available_tasks m \/
  available_tasks (agent_turn m id) =
  available_tasks (snd (assign_task_to_agv m)).
Proof.
  unfold agent_turn. destruct (find_agv (agents m) id) as [self|]; auto.
  pose proof (AGVAgent_step_tasks m self) as E.
  destruct (AGVAgent_step m self) as [m' self']. exact E.
Qed.

Lemma agent_turn_on_shelves :
  tasks_on_shelves m -> tasks_on_shelves (agent_turn m id).
Proof.
  intros H t. rewrite agent_turn_positions by discriminate.
  destruct agent_turn_tasks as [E|E]; rewrite E.
  - apply H.
  - intros Ht. apply assign_task_to_agv_on_shelves in Ht; auto.
    rewrite assign_task_to_agv_agents in Ht. exact Ht.
Qed.

Lemma agent_turn_backlog : backlog_ok m -> backlog_ok (agent_turn m id).
Proof.
  intros H. unfold backlog_ok.
  rewrite !agent_turn_positions by discriminate.
  destruct agent_turn_tasks as [E|E]; rewrite E.
  - exact H.
  - pose proof (assign_task_to_agv_backlog m H) as [_ [_ Hl]].
    destruct H as [Hs [Hd _]]. auto.
Qed.
End Turn.

(** *** The twin hooks *)

Section Hooks.
Variables (m : WarehouseModel) (id : nat).

Lemma hook_override_position_facts (new_pos : cell) :
  let m' := hook_override_position m id new_pos in
  (forall k, k <> AGVAgentK ->
             positions_of k (agents m') = positions_of k (agents m)) /\
  available_tasks m' = available_tasks m /\
  (forall p, is_obstacle (grid m) [ShelfAgent] p = true ->
             is_obstacle (grid m') [ShelfAgent] p = true) /\
  (batteries_ok m -> batteries_ok m').
Proof.
  unfold hook_override_position.
  destruct (find_agv (agents m) id) as [self|] eqn:Ef; simpl.
  - split; [intros k Hk; apply positions_of_store_agv; auto|].
    split; [reflexivity|].
    split; [intros p Hp; apply is_obstacle_move_agent; auto|].
    intros H a Ha. simpl in Ha. apply store_agv_In in Ha.
    destruct Ha as [->|Ha]; auto.
    apply (H _ (find_agv_In _ _ _ Ef)).
  - auto.
Qed.

Lemma assign_external_task_battery (self : AGVAgent) (t : Task) :
  battery_level (assign_external_task m self t) = battery_level self.
Proof.
  unfold assign_external_task.
  destruct (Qlt_bool _ _); auto. rewrite _calculate_path_to_battery.
  reflexivity.
Qed.

Lemma hook_assign_external_task_facts (t : Task) :
  let m' := hook_assign_external_task m id t in
  (forall k, k <> AGVAgentK ->
             positions_of k (agents m') = positions_of k (agents m)) /\
  available_tasks m' = available_tasks m /\
  grid m' = grid m /\
  (batteries_ok m -> batteries_ok m').
Proof.
  unfold hook_assign_external_task.
  destruct (find_agv (agents m) id) as [self|] eqn:Ef; simpl.
  - split; [intros k Hk; apply positions_of_store_agv; auto|].
    split; [reflexivity|]. split; [reflexivity|].
    intros H a Ha. simpl in Ha. apply store_agv_In in Ha.
    destruct Ha as [->|Ha]; auto.
    unfold battery_ok. rewrite assign_external_task_battery.
    apply (H _ (find_agv_In _ _ _ Ef)).
  - auto.
Qed.
End Hooks.

(** *** Construction *)

Lemma kind_eqb_refl (k : Kind) : kind_eqb k k = true.
Proof. destruct k; reflexivity. Qed.

Lemma kind_eqb_eq (a b : Kind) : kind_eqb a b = true -> a = b.
Proof. destruct a, b; simpl; congruence. Qed.

Lemma is_obstacle_placed (g : MultiGrid) (k : Kind) (id : nat) (p : cell) :
  is_obstacle (place_agent g (mkOcc k id) p) [k] p = true.
Proof.
  unfold is_obstacle, get_cell_list_contents. rewrite cells_place_agent.
  rewrite cell_eqb_refl, existsb_app. cbn [existsb isinstance occ_kind].
  rewrite kind_eqb_refl. simpl. apply orb_true_r.
Qed.

Lemma add_static_ok (m : WarehouseModel) (k : Kind) (p : cell) :
  building_ok m -> building_ok (add_static m k p).
Proof.
  intros [Hs [Hb Ht]]. unfold add_static. split; [|split].
  - intros q. cbn [agents set_grid set_agents grid].
    rewrite positions_of_app. intros Hq. apply in_app_or in Hq.
    destruct Hq as [Hq|Hq].
    + apply is_obstacle_place_agent. apply Hs, Hq.
    + unfold positions_of in Hq. cbn [filter agent_kind] in Hq.
      destruct (kind_eqb k ShelfAgent) eqn:E; [|destruct Hq].
      apply kind_eqb_eq in E. subst k. destruct Hq as [<-|[]].
      apply is_obstacle_placed.
  - intros a Ha. cbn [agents set_grid set_agents] in Ha.
    apply in_app_or in Ha. destruct Ha as [Ha|[Ha|[]]]; [auto|discriminate].
  - exact Ht.
Qed.

Lemma add_static_positions (m : WarehouseModel) (k k' : Kind) (p : cell) :
  positions_of k (agents (add_static m k' p)) =
  positions_of k (agents m) ++ (if kind_eqb k' k then [p] else []).
Proof.
  unfold add_static. cbn [agents set_grid set_agents].
  rewrite positions_of_app. unfold positions_of at 2.
  cbn [filter agent_kind]. destruct (kind_eqb k' k); reflexivity.
Qed.

Lemma layout_row_ok (row : string) :
  forall m x y, building_ok m -> building_ok (layout_row m x y row).
Proof.
  induction row as [|c row IH]; intros m x y H; simpl; auto.
  apply IH. destruct (kind_of_symbol c); auto using add_static_ok.
Qed.

Lemma layout_rows_ok (rows : list string) :
  forall m y, building_ok m -> building_ok (layout_rows m y rows).
Proof.
  induction rows as [|row rows IH]; intros m y H; simpl; auto.
  apply IH, layout_row_ok, H.
Qed.

Lemma layout_row_keeps (k : Kind) (row : string) :
  forall m x y,
    positions_of k (agents m) <> [] ->
    positions_of k (agents (layout_row m x y row)) <> [].
Proof.
  induction row as [|c row IH]; intros m x y H; simpl; auto.
  apply IH. destruct (kind_of_symbol c); auto.
  rewrite add_static_positions. intros E. apply app_eq_nil in E. tauto.
Qed.

Lemma layout_rows_keeps (k : Kind) (rows : list string) :
  forall m y,
    positions_of k (agents m) <> [] ->
    positions_of k (agents (layout_rows m y rows)) <> [].
Proof.
  induction rows as [|row rows IH]; intros m y H; simpl; auto.
  apply IH, layout_row_keeps, H.
Qed.

Lemma layout_row_has (k : Kind) (c : ascii) (row : string) :
  kind_of_symbol c = Some k ->
  existsb (Ascii.eqb c) (list_ascii_of_string row) = true ->
  forall m x y, positions_of k (agents (layout_row m x y row)) <> [].
Proof.
  intros Hk. induction row as [|c' row IH]; simpl; [discriminate|].
  intros H m x y. apply orb_true_iff in H. destruct H as [H|H].
  - apply Ascii.eqb_eq in H. subst c'. rewrite Hk.
    apply layout_row_keeps. rewrite add_static_positions, kind_eqb_refl.
    intros E. apply app_eq_nil in E. destruct E; discriminate.
  - apply IH; auto.
Qed.

Lemma layout_rows_has (k : Kind) (c : ascii) (rows : list string) :
  kind_of_symbol c = Some k ->
  layout_has rows c = true ->
  forall m y, positions_of k (agents (layout_rows m y rows)) <> [].
Proof.
  intros Hk. unfold layout_has.
  induction rows as [|row rows IH]; simpl; [discriminate|].
  intros H m y. apply orb_true_iff in H. destruct H as [H|H].
  - apply layout_rows_keeps. eapply layout_row_has; eauto.
  - apply IH; auto.
Qed.

Lemma fleet_loop_ok (n : nat) :
  forall open m, building_ok m -> building_ok (fleet_loop n open m).
Proof.
  induction n as [|n IH]; intros open m H; simpl; auto.
  destruct open as [|d rest]; [apply IH; auto|].
  destruct (random_choice (random m) d rest) as [p r].
  apply IH. destruct H as [Hs [Hb Ht]]. split; [|split].
  - intros q. cbn [agents set_grid set_agents set_random grid].
    rewrite positions_of_app. intros Hq. apply in_app_or in Hq.
    destruct Hq as [Hq|[]].
    apply is_obstacle_place_agent. apply Hs, Hq.
  - intros a Ha. cbn [agents set_grid set_agents set_random] in Ha.
    apply in_app_or in Ha. destruct Ha as [Ha|[Ha|[]]]; [auto|].
    inversion Ha; subst a. unfold battery_ok, AGVAgent_init. simpl. lra.
  - exact Ht.
Qed.

Lemma fleet_loop_positions (k : Kind) (n : nat) :
  k <> AGVAgentK ->
  forall open m,
    positions_of k (agents (fleet_loop n open m)) = positions_of k (agents m).
Proof.
  intros Hk. induction n as [|n IH]; intros open m; simpl; auto.
  destruct open as [|d rest]; [apply IH|].
  destruct (random_choice (random m) d rest) as [p r].
  rewrite IH. cbn [agents set_grid set_agents set_random].
  rewrite positions_of_app. unfold positions_of at 2.
  cbn [filter agent_kind]. destruct k; simpl; try congruence;
    apply app_nil_r.
Qed.

Section Init.
Variables (lay : list string) (w h : Z) (n : nat) (r : Random).

Lemma init_with_building :
  building_ok
    (_create_agv_fleet
       (_create_warehouse_layout lay
          (mkModel (mkGrid w h (fun _ => [])) [] [] 0 r)) n).
Proof.
  unfold _create_agv_fleet, _create_warehouse_layout.
  apply fleet_loop_ok, layout_rows_ok.
  split; [|split].
  - intros p [].
  - intros a [].
  - reflexivity.
Qed.

Lemma init_with_positions (k : Kind) (c : ascii) :
  kind_of_symbol c = Some k -> k <> AGVAgentK ->
  layout_has lay c = true ->
  positions_of k (agents (init_with lay w h n r)) <> [].
Proof.
  intros Hk Hne Hl. unfold init_with.
  rewrite _generate_tasks_agents.
  unfold _create_agv_fleet. rewrite fleet_loop_positions by auto.
  apply (layout_rows_has k c); auto.
Qed.

Lemma init_with_shelves : shelves_on_grid (init_with lay w h n r).
Proof.
  destruct init_with_building as [Hs _]. unfold init_with.
  intros p. rewrite _generate_tasks_agents, _generate_tasks_grid. apply Hs.
Qed.

Lemma init_with_batteries : batteries_ok (init_with lay w h n r).
Proof.
  destruct init_with_building as [_ [Hb _]]. unfold init_with.
  intros a. rewrite _generate_tasks_agents. apply Hb.
Qed.

Lemma init_with_on_shelves : tasks_on_shelves (init_with lay w h n r).
Proof.
  destruct init_with_building as [_ [_ Ht]]. unfold init_with.
  apply _generate_tasks_on_shelves. intros t. rewrite Ht. intros [].
Qed.

Lemma init_with_backlog :
  layout_has lay "S" = true -> layout_has lay "D" = true ->
  backlog_ok (init_with lay w h n r).
Proof.
  intros HS HD.
  pose proof (init_with_positions ShelfAgent "S" eq_refl
                ltac:(discriminate) HS) as Hs.
  pose proof (init_with_positions DropoffPointAgent "D" eq_refl
                ltac:(discriminate) HD) as Hd.
  split; [exact Hs|]. split; [exact Hd|].
  destruct init_with_building as [_ [_ Ht]].
  unfold init_with in *. rewrite _generate_tasks_agents in Hs, Hd.
  rewrite _generate_tasks_length; auto. lia.
Qed.
End Init.

(** *** A tick *)

Lemma WarehouseModel_step_preserves (P : WarehouseModel -> Prop) :
  (forall m id, P m -> P (agent_turn m id)) ->
  forall order m, P m -> P (WarehouseModel_step order m).
Proof.
  intros HP. unfold WarehouseModel_step.
  induction order as [|id order IH]; intros m H; simpl; auto.
Qed.

(** *** Reachable states *)

Lemma reachable_shelves (lay : list string) (m : WarehouseModel) :
  reachable lay m -> shelves_on_grid m /\ tasks_on_shelves m.
Proof.
  induction 1 as [w h n r|order m Hr IH|m Hr IH|m id p Hr IH|m id t Hr IH].
  - split; [apply init_with_shelves|apply init_with_on_shelves].
  - apply (WarehouseModel_step_preserves
             (fun m => shelves_on_grid m /\ tasks_on_shelves m)); auto.
    intros m0 id0 [A B]. split;
      [apply agent_turn_shelves|apply agent_turn_on_shelves]; auto.
  - destruct IH as [A B]. split.
    + intros p. rewrite assign_task_to_agv_agents, assign_task_to_agv_grid.
      apply A.
    + apply assign_task_to_agv_on_shelves, B.
  - destruct IH as [A B].
    destruct (hook_override_position_facts m id p) as [F1 [F2 [F3 _]]].
    split.
    + intros q. rewrite F1 by discriminate. intros Hq. apply F3, A, Hq.
    + intros t. rewrite F1 by discriminate. rewrite F2. apply B.
  - destruct IH as [A B].
    destruct (hook_assign_external_task_facts m id t) as [F1 [F2 [F3 _]]].
    split.
    + intros q. rewrite F1 by discriminate. rewrite F3. apply A.
    + intros t0. rewrite F1 by discriminate. rewrite F2. apply B.
Qed.

Lemma reachable_batteries (lay : list string) (m : WarehouseModel) :
  reachable lay m -> batteries_ok m.
Proof.
  induction 1 as [w h n r|order m Hr IH|m Hr IH|m id p Hr IH|m id t Hr IH].
  - apply init_with_batteries.
  - apply (WarehouseModel_step_preserves batteries_ok); auto.
    intros m0 id0. apply agent_turn_batteries.
  - intros a. rewrite assign_task_to_agv_agents. apply IH.
  - apply (hook_override_position_facts m id p), IH.
  - apply (hook_assign_external_task_facts m id t), IH.
Qed.

Lemma reachable_backlog (lay : list string) (m : WarehouseModel) :
  layout_has lay "S" = true -> layout_has lay "D" = true ->
  reachable lay m -> backlog_ok m.
Proof.
  intros HS HD.
  induction 1 as [w h n r|order m Hr IH|m Hr IH|m id p Hr IH|m id t Hr IH].
  - apply init_with_backlog; auto.
  - apply (WarehouseModel_step_preserves backlog_ok); auto.
    intros m0 id0. apply agent_turn_backlog.
  - apply assign_task_to_agv_backlog, IH.
  - destruct (hook_override_position_facts m id p) as [F1 [F2 _]].
    unfold backlog_ok. rewrite !F1 by discriminate. rewrite F2. exact IH.
  - destruct (hook_assign_external_task_facts m id t) as [F1 [F2 _]].
    unfold backlog_ok. rewrite !F1 by discriminate. rewrite F2. exact IH.
Qed.

(** ** Paths to a blocked goal *)

Lemma walk_last_passable (g : MultiGrid) (obstacles : list Kind)
      (rest : list cell) :
  forall a, walk g obstacles a rest -> rest <> [] ->
            passable g obstacles (last (a :: rest) a).
Proof.
  induction rest as [|b r IH]; intros a Hw Hne; [congruence|].
  destruct Hw as [_ [Hp Hw]].
  change (last (a :: b :: r) a) with (last (b :: r) a).
  rewrite (last_cons_default r b a b).
  destruct r as [|c r']; [exact Hp|]. apply IH; auto. discriminate.
Qed.

Lemma astar_blocked_goal (g : MultiGrid) (start goal : cell)
      (obstacles : list Kind) :
  is_obstacle g obstacles goal = true -> start <> goal ->
  astar g start goal obstacles = [].
Proof.
  intros Ho Hne.
  destruct (astar_contract g start goal obstacles) as [[E _]|R]; auto.
  exfalso. destruct R as [rest [E [Hw Hl]]]. rewrite E in Hl.
  destruct rest as [|b r]; [simpl in Hl; congruence|].
  pose proof (walk_last_passable g obstacles (b :: r) start Hw
                ltac:(discriminate)) as [_ Hp].
  rewrite Hl in Hp. congruence.
Qed.

Lemma is_obstacle_shelf (g : MultiGrid) (p : cell) :
  is_obstacle g [ShelfAgent] p = true ->
  is_obstacle g [WallAgent; ShelfAgent] p = true.
Proof.
  unfold is_obstacle. rewrite !existsb_exists.
  intros [a [Ha Hk]]. exists a. split; auto.
  unfold isinstance in *. simpl in *. rewrite orb_false_r in Hk.
  rewrite Hk. apply orb_true_r.
Qed.

(** ** The nearest charging station *)

Lemma nearest_spec (p : cell) (l : list cell) :
  forall best,
    In (nearest p best l) (best :: l) /\
    forall s, In s (best :: l) ->
              heuristic p (nearest p best l) <= heuristic p s.
Proof.
  induction l as [|s l IH]; intros best; simpl.
  - split; auto. intros x [<-|[]]; lia.
  - destruct (heuristic p s <? heuristic p best) eqn:E.
    + apply Z.ltb_lt in E. destruct (IH s) as [A B]. split.
      * simpl in A. tauto.
      * intros x [<-|[<-|Hx]].
        -- specialize (B s (or_introl eq_refl)). lia.
        -- apply B. simpl; auto.
        -- apply B. simpl; auto.
    + apply Z.ltb_ge in E. destruct (IH best) as [A B]. split.
      * simpl in A. tauto.
      * intros x [<-|[<-|Hx]].
        -- apply B. simpl; auto.
        -- specialize (B best (or_introl eq_refl)). lia.
        -- apply B. simpl; auto.
Qed.


(** ** What the follow-path step and a WAITING tick do *)

(** [_follow_path] waits exactly when the next cell holds a vehicle, the
    acting vehicle included. *)
Lemma _follow_path_waits (m : WarehouseModel) (self : AGVAgent)
      (next : cell) (rest : list cell) :
  path self = next :: rest ->
  (~ no_agv_at (grid m) next ->
   _follow_path m self =
   (m, set_steps_waiting (set_state self WAITING) (steps_waiting self + 1))) /\
  (no_agv_at (grid m) next ->
   pos (snd (_follow_path m self)) = next /\
   path (snd (_follow_path m self)) = rest /\
   steps_waiting (snd (_follow_path m self)) = 0%nat).
Proof.
  intros Hp. unfold _follow_path, no_agv_at, get_cell_list_contents.
  rewrite Hp.
  destruct (filter _ (cells (grid m) next)) as [|o l].
  - split; [intros H; contradiction H; reflexivity|]. intros _.
    destruct (state_eqb (state self) WAITING); repeat split.
  - split; [intros _; reflexivity|discriminate].
Qed.

(** The per-tick action has no branch for WAITING. *)
Lemma AGVAgent_step_waiting (m : WarehouseModel) (self : AGVAgent) :
  state self = WAITING ->
  Qlt_bool (battery_level self) low_battery_threshold = false ->
  AGVAgent_step m self = (m, self).
Proof.
  intros Hs Hb. unfold AGVAgent_step. rewrite Hb, Hs. reflexivity.
Qed.

(** ** The claims *)

(** C1, as stated, fails: for start = goal = (0, 0) on an open 2 x 1 grid
    [astar] returns [[(0, 0)]], which is not empty and contains the start
    cell. *)
Lemma findPath_contract_fails :
  ~ findPath_contract (open_grid 2 1) [] (0, 0) (0, 0)
      (astar (open_grid 2 1) (0, 0) (0, 0) []).
Proof.
  intros [H _]. destruct H as [_ H].
  assert (E : astar (open_grid 2 1) (0, 0) (0, 0) [] = []) by (apply H; auto).
  vm_compute in E. discriminate.
Qed.

(** C1, amended: [astar] returns either the empty list, and then the goal
    cannot be reached from the start through cells inside the grid that
    hold no obstacle, or a route that begins with the start cell, ends with
    the goal cell and proceeds by 4-directional steps through such cells;
    for start = goal it returns the one-cell route [[start]]. *)
Theorem astar_returns_route (g : MultiGrid) (start goal : cell)
    (obstacles : list Kind) :
  ((astar g start goal obstacles = [] /\
    ~ reachable_cell g obstacles start goal) \/
   route g obstacles start goal (astar g start goal obstacles)) /\
  astar g start start obstacles = [start].
Proof.
  split; [apply astar_contract|apply astar_same_cell].
Qed.

(** C2: vehicle 1 of [corridor] holds the path [astar] computed for it,
    which begins with its own cell; that cell holds no vehicle but number 1
    itself, and yet [_follow_path] makes it wait: state WAITING, wait
    counter 1, no move, no battery drain. *)
Lemma follow_path_blocked_by_itself :
  path corridor_agv = [(0, 0); (1, 0); (2, 0)] /\
  pos corridor_agv = (0, 0) /\
  get_cell_list_contents (grid corridor) (0, 0) = [occ_of corridor_agv] /\
  _follow_path corridor corridor_agv =
  (corridor, set_steps_waiting (set_state corridor_agv WAITING) 1).
Proof. repeat split. Qed.

(** C3: a WAITING vehicle with a full battery, an active task and a free
    next cell is left as it is by its per-tick action. *)
Lemma waiting_agv_stays :
  state waiting_agv = WAITING /\
  Qlt_bool (battery_level waiting_agv) low_battery_threshold = false /\
  path waiting_agv = [(1, 0)] /\
  get_cell_list_contents (grid corridor) (1, 0) = [] /\
  AGVAgent_step corridor waiting_agv = (corridor, waiting_agv).
Proof. repeat split. Qed.

(** C4: in every reachable model state all backlog tasks pick up at a cell
    holding a shelf; an idle vehicle that is granted such a task and does
    not stand on the pickup cell gets the empty path from [astar] (called
    with the obstacles Wall and Shelf) and ends its action IDLE without
    task and without path. *)
Theorem dispatcher_tasks_never_start (lay : list string) (m : WarehouseModel)
    (self : AGVAgent) (t : Task) :
  reachable lay m ->
  state self = IDLE ->
  Qlt_bool (battery_level self) low_battery_threshold = false ->
  fst (assign_task_to_agv m) = Some t ->
  pos self <> pickup t ->
  (forall t', In t' (available_tasks m) ->
              is_obstacle (grid m) [ShelfAgent] (pickup t') = true) /\
  astar (grid m) (pos self) (pickup t) [WallAgent; ShelfAgent] = [] /\
  state (snd (AGVAgent_step m self)) = IDLE /\
  task (snd (AGVAgent_step m self)) = None /\
  path (snd (AGVAgent_step m self)) = [].
Proof.
  intros Hr Hs Hb Ht Hp.
  destruct (reachable_shelves lay m Hr) as [Hg Hts].
  assert (Hall : forall t', In t' (available_tasks m) ->
                 is_obstacle (grid m) [ShelfAgent] (pickup t') = true).
  { intros t' Ht'. apply Hg, Hts, Ht'. }
  assert (Hin : In t (available_tasks m)).
  { unfold assign_task_to_agv in Ht.
    destruct (available_tasks m) as [|t0 rest]; [discriminate|].
    simpl in Ht. inversion Ht. simpl; auto. }
  assert (Ha : astar (grid m) (pos self) (pickup t) [WallAgent; ShelfAgent]
               = []).
  { apply astar_blocked_goal; auto. apply is_obstacle_shelf, Hall, Hin. }
  split; [exact Hall|]. split; [exact Ha|].
  unfold AGVAgent_step. rewrite Hb, Hs. cbn [andb].
  unfold _handle_idle_state.
  pose proof (assign_task_to_agv_grid m) as Eg.
  destruct (assign_task_to_agv m) as [t0 m']. cbn [fst snd] in *. subst t0.
  unfold _calculate_path_to.
  cbn [pos set_path set_task set_state path]. rewrite Eg, Ha.
  repeat split.
Qed.

Lemma dispatcher_tasks_never_start_witness :
  reachable small_layout small_model /\
  state small_agv = IDLE /\
  pos small_agv <> (0, 0) /\
  state (snd (AGVAgent_step small_model small_agv)) = IDLE /\
  task (snd (AGVAgent_step small_model small_agv)) = None.
Proof.
  assert (R : reachable small_layout small_model) by apply reach_init.
  assert (P : pos small_agv <> pickup (mkTask (0, 0) (2, 0)))
    by (vm_compute; discriminate).
  destruct (dispatcher_tasks_never_start small_layout small_model small_agv
              (mkTask (0, 0) (2, 0)) R eq_refl eq_refl eq_refl P)
    as [_ [_ [A [B _]]]].
  split; [exact R|]. split; [reflexivity|]. split; [exact P|].
  split; [exact A|exact B].
Defined.

(** C5, as stated, fails: from (0, 0) to (2, 2) on an open 3 x 3 grid the
    Manhattan distance is 4 and [astar] returns 5 cells. *)
Lemma manhattan_length_fails :
  Z.of_nat (length (astar (open_grid 3 3) (0, 0) (2, 2) [])) <>
  heuristic (0, 0) (2, 2).
Proof. vm_compute. discriminate. Qed.

(** C5, amended: on a grid none of whose cells holds an obstacle, for cells
    [a] and [b] inside the grid, [astar] returns a list of exactly
    Manhattan distance + 1 cells (the start cell is part of it). *)
Theorem astar_length_open_grid (g : MultiGrid) (a b : cell)
    (obstacles : list Kind) :
  in_bounds g a = true -> in_bounds g b = true ->
  (forall p, in_bounds g p = true -> is_obstacle g obstacles p = false) ->
  Z.of_nat (length (astar g a b obstacles)) = heuristic a b + 1.
Proof. apply astar_open_grid_length. Qed.

Lemma astar_length_open_grid_witness :
  in_bounds (open_grid 3 3) (0, 0) = true /\
  in_bounds (open_grid 3 3) (2, 2) = true /\
  Z.of_nat (length (astar (open_grid 3 3) (0, 0) (2, 2) [])) = 4 + 1.
Proof.
  split; [reflexivity|]. split; [reflexivity|].
  apply (astar_length_open_grid (open_grid 3 3) (0, 0) (2, 2) []);
    [reflexivity|reflexivity|intros p _; reflexivity].
Defined.

(** C6, as stated, fails: [corridor] has no charging station, and the idle
    vehicle with battery 10 is still IDLE after its action. *)
Lemma low_battery_without_station :
  Qlt_bool (battery_level drained_agv) low_battery_threshold = true /\
  state drained_agv <> CHARGING /\
  state (snd (AGVAgent_step corridor drained_agv)) <> CHARGING.
Proof. repeat split; vm_compute; discriminate. Qed.

(** C6, amended: the action of a vehicle whose battery is below the
    threshold and whose state is not CHARGING leaves the model as it is;
    without a charging station it leaves the vehicle as it is; otherwise it
    picks a station of least Manhattan distance, stores the path [astar]
    computes to it, and, when that path is not empty, the vehicle is in
    state CHARGING with its task retained, while with an empty path it is
    IDLE without task. *)
Theorem low_battery_preemption (m : WarehouseModel) (self : AGVAgent) :
  Qlt_bool (battery_level self) low_battery_threshold = true ->
  state self <> CHARGING ->
  fst (AGVAgent_step m self) = m /\
  match positions_of ChargingStationAgent (agents m) with
  | [] => snd (AGVAgent_step m self) = self
  | s0 :: rest =>
      let self' := snd (AGVAgent_step m self) in
      let target := nearest (pos self) s0 rest in
      let p := astar (grid m) (pos self) target [WallAgent; ShelfAgent] in
      In target (s0 :: rest) /\
      (forall s, In s (s0 :: rest) ->
                 heuristic (pos self) target <= heuristic (pos self) s) /\
      path self' = p /\
      (p <> [] -> state self' = CHARGING /\ task self' = task self) /\
      (p = [] -> state self' = IDLE /\ task self' = None)
  end.
Proof.
  intros Hb Hs. unfold AGVAgent_step. rewrite Hb.
  assert (E : negb (state_eqb (state self) CHARGING) = true)
    by (destruct (state self); auto; congruence).
  rewrite E. cbn [andb fst snd]. split; [reflexivity|].
  unfold _start_charging.
  destruct (positions_of ChargingStationAgent (agents m)) as [|s0 rest];
    [reflexivity|].
  destruct (nearest_spec (pos self) rest s0) as [A B].
  cbv zeta. split; [exact A|]. split; [exact B|].
  unfold _calculate_path_to. cbn [pos set_path set_state path].
  destruct (astar (grid m) (pos self) (nearest (pos self) s0 rest)
                  [WallAgent; ShelfAgent]) as [|c p].
  - split; [reflexivity|]. split; [congruence|]. intros _. split; reflexivity.
  - split; [reflexivity|]. split; [|discriminate]. intros _.
    split; reflexivity.
Qed.

Lemma low_battery_preemption_witness :
  Qlt_bool (battery_level drained_agv) low_battery_threshold = true /\
  state drained_agv <> CHARGING /\
  state (snd (AGVAgent_step corridor_with_station drained_agv)) = CHARGING /\
  task (snd (AGVAgent_step corridor_with_station drained_agv)) = None /\
  path (snd (AGVAgent_step corridor_with_station drained_agv)) =
  astar (grid corridor_with_station) (0, 0) (2, 0) [WallAgent; ShelfAgent].
Proof.
  assert (S : state drained_agv <> CHARGING) by (vm_compute; discriminate).
  destruct (low_battery_preemption corridor_with_station drained_agv
              eq_refl S) as [_ H].
  change (positions_of ChargingStationAgent (agents corridor_with_station))
    with [(2, 0)] in H.
  cbv zeta in H. destruct H as [_ [_ [Hp [Hc _]]]].
  split; [reflexivity|]. split; [exact S|].
  destruct Hc as [Hc1 Hc2]; [vm_compute; discriminate|].
  split; [exact Hc1|]. split; [exact Hc2|exact Hp].
Defined.

Lemma step_no_double_occupancy_witness :
  no_double_occupancy two_agvs /\
  no_double_occupancy (WarehouseModel_step [1%nat; 2%nat] two_agvs).
Proof.
  assert (H : no_double_occupancy two_agvs).
  { intros p. unfold agv_count, two_agvs. cbn [grid cells].
    destruct (cell_eqb p (0, 0)); [simpl; lia|].
    destruct (cell_eqb p (2, 0)); simpl; lia. }
  split; [exact H|].
  apply (step_no_double_occupancy [1%nat; 2%nat] two_agvs H).
Defined.

(** C8: in every reachable model state every vehicle's battery level is
    between 0 and 100, and so it is after the vehicle's action; the action
    does not raise the level unless the vehicle charges at a station (in
    particular not when the vehicle moved), and does not lower it when the
    vehicle charges. *)
Theorem battery_bounds (lay : list string) (m : WarehouseModel)
    (self : AGVAgent) :
  reachable lay m -> In (Vehicle self) (agents m) ->
  battery_ok self /\
  battery_ok (snd (AGVAgent_step m self)) /\
  (pos (snd (AGVAgent_step m self)) <> pos self ->
   battery_level (snd (AGVAgent_step m self)) <= battery_level self)%Q /\
  (charging_at_station m self = false ->
   battery_level (snd (AGVAgent_step m self)) <= battery_level self)%Q /\
  (charging_at_station m self = true ->
   battery_level self <= battery_level (snd (AGVAgent_step m self)))%Q.
Proof.
  intros Hr Hin.
  pose proof (reachable_batteries lay m Hr self Hin) as Hb.
  destruct (AGVAgent_step_battery m self Hb) as [A [B [C D]]].
  auto 6.
Qed.

Lemma battery_bounds_witness :
  reachable small_layout small_model /\
  In (Vehicle small_agv) (agents small_model) /\
  battery_ok small_agv /\
  battery_ok (snd (AGVAgent_step small_model small_agv)).
Proof.
  assert (R : reachable small_layout small_model) by apply reach_init.
  assert (I : In (Vehicle small_agv) (agents small_model)).
  { vm_compute. auto. }
  destruct (battery_bounds small_layout small_model small_agv R I)
    as [A [B _]].
  split; [exact R|]. split; [exact I|]. split; [exact A|exact B].
Defined.

Lemma reachable_requests (lay : list string) (m : WarehouseModel) (n : nat) :
  reachable lay m -> reachable lay (requests n m).
Proof.
  intros H. induction n as [|n IH]; simpl; auto. apply reach_request, IH.
Qed.

(** C9: in a reachable state of a model whose layout has a shelf and a
    dropoff point, a task request that pops a task and leaves fewer than 10
    in the backlog ends with at least 10 tasks in the backlog. *)
Theorem backlog_replenished (lay : list string) (m : WarehouseModel)
    (t : Task) :
  layout_has lay "S" = true -> layout_has lay "D" = true ->
  reachable lay m ->
  fst (assign_task_to_agv m) = Some t ->
  (length (available_tasks m) - 1 < 10)%nat ->
  (10 <= length (available_tasks (snd (assign_task_to_agv m))))%nat.
Proof.
  intros HS HD Hr _ _.
  apply (assign_task_to_agv_backlog m (reachable_backlog lay m HS HD Hr)).
Qed.

Lemma backlog_replenished_witness :
  reachable small_layout (requests 20 small_model) /\
  length (available_tasks (requests 20 small_model)) = 10%nat /\
  (10 <= length (available_tasks
                   (snd (assign_task_to_agv (requests 20 small_model)))))%nat.
Proof.
  assert (R : reachable small_layout (requests 20 small_model)).
  { apply reachable_requests, reach_init. }
  split; [exact R|]. split; [vm_compute; reflexivity|].
  apply (backlog_replenished small_layout (requests 20 small_model)
           (mkTask (0, 0) (2, 0)));
    [reflexivity|reflexivity|exact R|vm_compute; reflexivity
    |vm_compute; lia].
Defined.

Lemma astar_deterministic_witness :
  astar_returns (open_grid 2 1) (0, 0) (1, 0) [] [(0, 0); (1, 0)] /\
  astar_returns (open_grid 2 1) (0, 0) (1, 0) []
                (astar (open_grid 2 1) (0, 0) (1, 0) []) /\
  [(0, 0); (1, 0)] = astar (open_grid 2 1) (0, 0) (1, 0) [].
Proof.
  assert (R1 : astar_returns (open_grid 2 1) (0, 0) (1, 0) []
                             [(0, 0); (1, 0)]).
  { unfold astar_returns.
    eapply (run_expand _ _ _ _ _ _ (mkEntry 0 0 (0, 0) [(0, 0)]) []).
    - split; [apply Permutation_refl|intros x []].
    - discriminate.
    - intros [].
    - reflexivity.
    - eapply (run_goal _ _ _ _ _ _ (mkEntry 1 1 (1, 0) [(0, 0); (1, 0)]) []).
      + split; [apply Permutation_refl|intros x []].
      + reflexivity. }
  assert (R2 : astar_returns (open_grid 2 1) (0, 0) (1, 0) []
                             (astar (open_grid 2 1) (0, 0) (1, 0) [])).
  { apply astar_returns_astar. }
  split; [exact R1|]. split; [exact R2|].
  apply (astar_deterministic (open_grid 2 1) (0, 0) (1, 0) [] _ _ R1 R2).
Defined.
